(** * WorkloadCharacterisation: a shallow embedding of the AIWC plugin

    Source: src/src/plugins/WorkloadCharacterisation.cpp (Oclgrind).

    Modelling conventions.
    - [size_t] addresses and [uintN_t] counters are [Z] values with their
      wrap-around written out ([mod 2^N]).
    - [std::unordered_map] is stdpp's [gmap]; a range-for over it is
      [map_fold], whose iteration order is left unspecified, as in C++.
    - A [double] is a real number or a non-finite value ([NaN] or an
      infinity).  IEEE rounding is not modelled: finite values are exact
      reals and the [(float)] casts are the identity on them.  Non-finite
      values absorb every later addition, subtraction and multiplication,
      which is what IEEE arithmetic does with NaN and with infinities of a
      single sign (the only ones this code produces). *)

From Stdlib Require Import ZArith Reals Lra Lia.
From stdpp Require Import base gmap sets list strings pretty sorting.

(* ------------------------------------------------------------------ *)
(** ** Doubles *)

Inductive double : Type :=
| Fin (r : R)
| NonFinite.

Definition dsub (a b : double) : double :=
  match a, b with
  | Fin x, Fin y => Fin (x - y)
  | _, _ => NonFinite
  end.

Definition dadd (a b : double) : double :=
  match a, b with
  | Fin x, Fin y => Fin (x + y)
  | _, _ => NonFinite
  end.

Definition dmul (a b : double) : double :=
  match a, b with
  | Fin x, Fin y => Fin (x * y)
  | _, _ => NonFinite
  end.

(** [std::log2] on reals. *)
Definition log2 (x : R) : R := (ln x / ln 2)%R.

(** [prob * std::log2(prob)] with [prob = (double)c / (double)d] for
    counters [c] and [d].  A zero numerator gives [0 * -inf = NaN], a zero
    denominator gives [inf * log2 inf = inf]; otherwise the value is finite. *)
Definition plogp (c d : Z) : double :=
  if Z.eqb c 0 || Z.eqb d 0 then NonFinite
  else let p := (IZR c / IZR d)%R in Fin (p * log2 p)%R.

(** [(float)x]: single-precision rounding is not modelled. *)
Definition to_float (x : double) : double := x.

Definition two32 : Z := 2 ^ 32.
Definition two64 : Z := 2 ^ 64.

(** The exact sum of a list of counters. *)
Definition sumZ (l : list Z) : Z := fold_right Z.add 0%Z l.

(* ------------------------------------------------------------------ *)
(** ** [entropy] (lines 302-331) *)

Module Entropy.

(** [local_address_count[nskip][m.first >> nskip] += m.second], a
    [uint32_t] addition, for every entry [m] of [histogram]. *)
Definition bucket_step (nskip addr cnt : Z) (lac : gmap Z Z) : gmap Z Z :=
  let local_addr := Z.shiftr addr nskip in
  <[local_addr := ((default 0 (lac !! local_addr) + cnt) mod two32)%Z]> lac.

Definition bucket (nskip : Z) (histogram : gmap Z Z) : gmap Z Z :=
  map_fold (bucket_step nskip) ∅ histogram.

(** [local_address_count[0] = histogram], then skips 1..10. *)
Definition local_address_count (histogram : gmap Z Z) (nskip : Z) : gmap Z Z :=
  if Z.eqb nskip 0 then histogram else bucket nskip histogram.

(** [total_access_count += m.second] on a [uint64_t]. *)
Definition total_access_count (histogram : gmap Z Z) : Z :=
  map_fold (fun _ cnt acc => ((acc + cnt) mod two64)%Z) 0%Z histogram.

(** The inner loop for one [nskip]:
    [local_entropy = local_entropy - prob * log2(prob)],
    [prob = it.second / (total_access_count + 1)] with a [uint64_t] [+1]. *)
Definition local_entropy (total : Z) (lac : gmap Z Z) : double :=
  map_fold (fun _ cnt acc => dsub acc (plogp cnt ((total + 1) mod two64)))
           (Fin 0%R) lac.

Definition nskips : list Z := map Z.of_nat (seq 0 11).

Definition entropy (histogram : gmap Z Z) : list double :=
  let total := total_access_count histogram in
  if Z.eqb total 0 then repeat (Fin 0%R) 11
  else map (fun nskip =>
              to_float (local_entropy total (local_address_count histogram nskip)))
           nskips.

(** The claim's formula: buckets [address >> skip] with exact (unbounded)
    sums, [p = count / (total + 1)], [H = - sum p * log2 p]. *)
Definition spec_bucket_step (nskip addr cnt : Z) (acc : gmap Z Z) : gmap Z Z :=
  <[Z.shiftr addr nskip := (default 0 (acc !! Z.shiftr addr nskip) + cnt)%Z]> acc.

Definition spec_bucket (nskip : Z) (histogram : gmap Z Z) : gmap Z Z :=
  map_fold (spec_bucket_step nskip) ∅ histogram.

Definition spec_total (histogram : gmap Z Z) : Z :=
  map_fold (fun _ cnt acc => (cnt + acc)%Z) 0%Z histogram.

Definition plogp_real (N : R) (_ : Z) (cnt : Z) (acc : R) : R :=
  ((IZR cnt / N) * log2 (IZR cnt / N) + acc)%R.

Definition spec_H (histogram : gmap Z Z) (nskip : Z) : R :=
  (- map_fold (plogp_real (IZR (spec_total histogram + 1))) 0
                (spec_bucket nskip histogram))%R.

End Entropy.

(* ------------------------------------------------------------------ *)
(** ** Plugin state and the hot-path callbacks *)

Module Plugin.
Import Entropy.

(** Address-space tags of the interpreter; [AddrSpacePrivate] is 0, which
    is why the atomic callbacks test [getAddressSpace() != 0]. *)
Definition AddrSpacePrivate : Z := 0.

Record Size3 := mkSize3 { sx : Z; sy : Z; sz : Z }.

Record ledgerElement := mkLedgerElement { le_address : Z; le_timestep : Z }.

Record KernelInvocation := mkKernelInvocation {
  ki_name : string;
  ki_work_group_size_specified : bool;
  ki_num_groups : Size3;
  ki_local_size : Size3 }.

(** The maps and vectors of [m_state] (all allocated together). *)
Record WorkerMaps := mkWorkerMaps {
  storeOps : gmap Z Z;                      (* address -> uint32_t *)
  loadOps : gmap Z Z;                       (* address -> uint32_t *)
  computeOps : gmap Z Z;                    (* opcode -> size_t *)
  branchOps : gmap Z (list bool);           (* branch instruction -> taken list *)
  instructionsBetweenBarriers : list Z;     (* vector<uint32_t> *)
  instructionWidth : gmap Z Z;              (* uint16_t width -> size_t *)
  instructionsPerWorkitem : list Z;         (* vector<uint32_t> *)
  instructionsBetweenLoadOrStore : list Z;  (* vector<uint32_t> *)
  loadInstructionLabels : gmap string Z;
  storeInstructionLabels : gmap string Z }.

Definition empty_maps : WorkerMaps :=
  mkWorkerMaps ∅ ∅ ∅ ∅ [] ∅ [] [] ∅ ∅.

(** The scalar counters of [m_state]. *)
Record WorkerCounters := mkWorkerCounters {
  threads_invoked : Z;
  instruction_count : Z;
  workitem_instruction_count : Z;
  ops_between_load_or_store : Z;
  barriers_hit : Z;
  constant_memory_access_count : Z;
  local_memory_access_count : Z;
  global_memory_access_count : Z }.

(** Branch transition state; pointers are [option Z], [nullptr] is [None]. *)
Record BranchState := mkBranchState {
  previous_instruction_is_branch : bool;
  target1 : option Z;
  target2 : option Z;
  branch_loc : option Z }.

(** [WorkerState m_state], thread-local.  [ws_allocated] is
    [m_state.storeOps != NULL]. *)
Record WorkerState := mkWorkerState {
  ws_allocated : bool;
  ws_maps : WorkerMaps;
  ws_ctr : WorkerCounters;
  ws_branch : BranchState;
  ws_ledger : list (list ledgerElement);
  ws_psl_per_barrier : list (list double * Z) }.

(** [m_state = {NULL}] at thread start. *)
Definition initial_worker : WorkerState :=
  mkWorkerState false empty_maps (mkWorkerCounters 0 0 0 0 0 0 0 0)
    (mkBranchState false None None None) [] [].

Definition with_maps (ws : WorkerState) (m : WorkerMaps) : WorkerState :=
  mkWorkerState (ws_allocated ws) m (ws_ctr ws) (ws_branch ws) (ws_ledger ws)
    (ws_psl_per_barrier ws).

Definition with_ctr (ws : WorkerState) (c : WorkerCounters) : WorkerState :=
  mkWorkerState (ws_allocated ws) (ws_maps ws) c (ws_branch ws) (ws_ledger ws)
    (ws_psl_per_barrier ws).

Definition with_ledger (ws : WorkerState) (l : list (list ledgerElement)) : WorkerState :=
  mkWorkerState (ws_allocated ws) (ws_maps ws) (ws_ctr ws) (ws_branch ws) l
    (ws_psl_per_barrier ws).

(** [map[key]++] on a [uint32_t] value. *)
Definition incr32 (m : gmap Z Z) (k : Z) : gmap Z Z :=
  <[k := ((default 0 (m !! k) + 1) mod two32)%Z]> m.

(** [threadMemoryLedger]: [m_state.ledger[x*ly*lz + y*lz + z].push_back(le)].
    An index past the end is undefined behaviour in the source; [alter]
    leaves the ledger unchanged there. *)
Definition threadMemoryLedger (local_num : Size3) (address timestep : Z)
    (localID : Size3) (ws : WorkerState) : WorkerState :=
  let idx := (sx localID * sy local_num * sz local_num
              + sy localID * sz local_num + sz localID)%Z in
  with_ledger ws (alter (fun row => row ++ [mkLedgerElement address timestep])
                        (Z.to_nat idx) (ws_ledger ws)).

Definition set_loadOps (m : WorkerMaps) (l : gmap Z Z) : WorkerMaps :=
  mkWorkerMaps (storeOps m) l (computeOps m) (branchOps m)
    (instructionsBetweenBarriers m) (instructionWidth m) (instructionsPerWorkitem m)
    (instructionsBetweenLoadOrStore m) (loadInstructionLabels m)
    (storeInstructionLabels m).

Definition set_storeOps (m : WorkerMaps) (s : gmap Z Z) : WorkerMaps :=
  mkWorkerMaps s (loadOps m) (computeOps m) (branchOps m)
    (instructionsBetweenBarriers m) (instructionWidth m) (instructionsPerWorkitem m)
    (instructionsBetweenLoadOrStore m) (loadInstructionLabels m)
    (storeInstructionLabels m).

(** [memoryLoad] and [memoryAtomicLoad] (their tests [!= AddrSpacePrivate]
    and [!= 0] coincide). *)
Definition memoryLoad (local_num : Size3) (space address : Z) (localID : Size3)
    (ws : WorkerState) : WorkerState :=
  if Z.eqb space AddrSpacePrivate then ws
  else threadMemoryLedger local_num address 0 localID
         (with_maps ws (set_loadOps (ws_maps ws) (incr32 (loadOps (ws_maps ws)) address))).

(** [memoryStore] and [memoryAtomicStore]. *)
Definition memoryStore (local_num : Size3) (space address : Z) (localID : Size3)
    (ws : WorkerState) : WorkerState :=
  if Z.eqb space AddrSpacePrivate then ws
  else threadMemoryLedger local_num address 0 localID
         (with_maps ws (set_storeOps (ws_maps ws) (incr32 (storeOps (ws_maps ws)) address))).

Definition push32 (l : list Z) (x : Z) : list Z := l ++ [(x mod two32)%Z].

Definition set_betweenBarriers (m : WorkerMaps) (l : list Z) : WorkerMaps :=
  mkWorkerMaps (storeOps m) (loadOps m) (computeOps m) (branchOps m) l
    (instructionWidth m) (instructionsPerWorkitem m)
    (instructionsBetweenLoadOrStore m) (loadInstructionLabels m)
    (storeInstructionLabels m).

Definition set_perWorkitem (m : WorkerMaps) (l : list Z) : WorkerMaps :=
  mkWorkerMaps (storeOps m) (loadOps m) (computeOps m) (branchOps m)
    (instructionsBetweenBarriers m) (instructionWidth m) l
    (instructionsBetweenLoadOrStore m) (loadInstructionLabels m)
    (storeInstructionLabels m).

(** [workItemBarrier]. *)
Definition workItemBarrier (ws : WorkerState) : WorkerState :=
  let c := ws_ctr ws in
  let ws1 := with_maps ws (set_betweenBarriers (ws_maps ws)
               (push32 (instructionsBetweenBarriers (ws_maps ws)) (instruction_count c))) in
  with_ctr ws1 (mkWorkerCounters (threads_invoked c) 0 (workitem_instruction_count c)
                  (ops_between_load_or_store c) (barriers_hit c + 1)
                  (constant_memory_access_count c) (local_memory_access_count c)
                  (global_memory_access_count c)).

(** [workItemClearBarrier]. *)
Definition workItemClearBarrier (ws : WorkerState) : WorkerState :=
  let c := ws_ctr ws in
  with_ctr ws (mkWorkerCounters (threads_invoked c) 0 (workitem_instruction_count c)
                 (ops_between_load_or_store c) (barriers_hit c)
                 (constant_memory_access_count c) (local_memory_access_count c)
                 (global_memory_access_count c)).

(** [workItemBegin]. *)
Definition workItemBegin (ws : WorkerState) : WorkerState :=
  let c := ws_ctr ws in
  with_ctr ws (mkWorkerCounters (threads_invoked c + 1) 0 0 0 (barriers_hit c)
                 (constant_memory_access_count c) (local_memory_access_count c)
                 (global_memory_access_count c)).

(** [workItemComplete]. *)
Definition workItemComplete (ws : WorkerState) : WorkerState :=
  let c := ws_ctr ws in
  let m := ws_maps ws in
  with_maps ws (set_perWorkitem
                  (set_betweenBarriers m
                     (push32 (instructionsBetweenBarriers m) (instruction_count c)))
                  (push32 (instructionsPerWorkitem m) (workitem_instruction_count c))).

(** [workGroupBegin].  The maps and the ledger are created only when
    [m_state.storeOps] is still [NULL]; the ledger then gets
    [m_local_num.x * m_local_num.y * m_local_num.z] empty rows.  Every call
    then clears the maps, resets the counters listed in the source, the
    branch state, and every ledger row. *)
Definition workGroupBegin (local_num : Size3) (ws : WorkerState) : WorkerState :=
  let ws1 :=
    if ws_allocated ws then ws
    else mkWorkerState true empty_maps (ws_ctr ws) (ws_branch ws)
           (replicate (Z.to_nat (sx local_num * sy local_num * sz local_num)) [])
           [] in
  let c := ws_ctr ws1 in
  mkWorkerState true empty_maps
    (mkWorkerCounters 0 0 (workitem_instruction_count c) (ops_between_load_or_store c)
       0 0 0 0)
    (mkBranchState false None None None)
    (map (fun _ => []) (ws_ledger ws1))
    (ws_psl_per_barrier ws1).

(** [parallelSpatialLocality] (lines 333-360). *)
Definition max_row_length (hist : list (list ledgerElement)) : nat :=
  fold_left (fun acc row => if Nat.ltb acc (length row) then length row else acc) hist 0%nat.

(** [histogram[current.address] = histogram[current.address] + 1] for every
    row long enough at timestep [i] ([uint32_t] counts). *)
Definition timestep_histogram (hist : list (list ledgerElement)) (i : nat) : gmap Z Z :=
  fold_left (fun h row =>
               match row !! i with
               | Some cur => incr32 h (le_address cur)
               | None => h
               end) hist ∅.

Definition parallelSpatialLocality (hist : list (list ledgerElement)) : list double :=
  let maxLength := max_row_length hist in
  let entropies := map (fun i => entropy (timestep_histogram hist i)) (seq 0 maxLength) in
  map (fun i =>
         let s := fold_left (fun acc e => dadd acc (default (Fin 0%R) (e !! i)))
                            entropies (Fin 0%R) in
         dmul s (Fin (/ (INR (length entropies) + 1))%R))
      (seq 0 11).

(** [workGroupBarrier]: PSL of the ledger, clear every row, record
    [(psl, maxLength)]. *)
Definition workGroupBarrier (ws : WorkerState) : WorkerState :=
  let psl := parallelSpatialLocality (ws_ledger ws) in
  let maxLength := max_row_length (ws_ledger ws) in
  mkWorkerState (ws_allocated ws) (ws_maps ws) (ws_ctr ws) (ws_branch ws)
    (map (fun _ => []) (ws_ledger ws))
    (ws_psl_per_barrier ws ++ [(psl, Z.of_nat maxLength)]).

(** The events of one work-group, as the interpreter replays them on the
    thread running it.  [instructionExecuted] is not modelled: the maps it
    fills ([computeOps], [branchOps], [instructionWidth], ...) are taken
    as they are in the worker state. *)
Inductive WGEvent :=
| EvLoad (space address : Z) (localID : Size3)
| EvStore (space address : Z) (localID : Size3)
| EvItemBegin
| EvItemComplete
| EvItemBarrier
| EvItemClearBarrier
| EvGroupBarrier.

Definition wg_step (local_num : Size3) (ws : WorkerState) (e : WGEvent) : WorkerState :=
  match e with
  | EvLoad sp a lid => memoryLoad local_num sp a lid ws
  | EvStore sp a lid => memoryStore local_num sp a lid ws
  | EvItemBegin => workItemBegin ws
  | EvItemComplete => workItemComplete ws
  | EvItemBarrier => workItemBarrier ws
  | EvItemClearBarrier => workItemClearBarrier ws
  | EvGroupBarrier => workGroupBarrier ws
  end.

(** [workGroupBegin] followed by the group's events. *)
Definition run_group (local_num : Size3) (ws : WorkerState) (evs : list WGEvent)
    : WorkerState :=
  fold_left (wg_step local_num) evs (workGroupBegin local_num ws).

(** The invocation aggregate, members of [WorkloadCharacterisation].  Their
    declarations live in the header, which is not under src/; counts are
    unbounded here. *)
Record Aggregate := mkAggregate {
  m_storeOps : gmap Z Z;
  m_loadOps : gmap Z Z;
  m_computeOps : gmap Z Z;
  m_branchPatterns : gmap Z (gmap Z Z);     (* site -> uint16_t pattern -> count *)
  m_branchCounts : gmap Z Z;
  m_instructionsToBarrier : list Z;
  m_instructionWidth : gmap Z Z;
  m_instructionsPerWorkitem : list Z;
  m_instructionsBetweenLoadOrStore : list Z;
  m_loadInstructionLabels : gmap string Z;
  m_storeInstructionLabels : gmap string Z;
  m_threads_invoked : Z;
  m_barriers_hit : Z;
  m_global_memory_access : Z;
  m_local_memory_access : Z;
  m_constant_memory_access : Z;
  m_psl_per_group : list (list double) }.

(** All the other members of the plugin. *)
Record PluginState := mkPluginState {
  agg : Aggregate;
  m_kernelInvocation : option KernelInvocation;
  m_group_num : Size3;
  m_local_num : Size3;
  m_hostToDeviceCopy : list string;
  m_deviceToHostCopy : list string;
  m_numberOfHostToDeviceCopiesBeforeKernelNamed : Z;
  m_last_kernel_name : string }.

(** [map[k] += v]. *)
Definition add_at {K} `{Countable K} (m : gmap K Z) (k : K) (v : Z) : gmap K Z :=
  <[k := (default 0 (m !! k) + v)%Z]> m.

(** Key-wise merge [for (item : src) dst[item.first] += item.second]. *)
Definition merge_add {K} `{Countable K} (dst src : gmap K Z) : gmap K Z :=
  map_fold (fun k v acc => add_at acc k v) dst src.

(** Branch-history extraction, [m = 16] (lines 762-782).  The rolling
    register is a [uint16_t]: [(current_pattern << 1) | bit], truncated. *)
Definition history_m : nat := 16.

Definition pattern_step (cur : Z) (b : bool) : Z :=
  Z.land (Z.lor (Z.shiftl cur 1) (if b then 1 else 0)) 65535.

(** [m_branchPatterns[site][pattern]++]. *)
Definition incr_pattern (site pat : Z) (pats : gmap Z (gmap Z Z)) : gmap Z (gmap Z Z) :=
  let inner := default ∅ (pats !! site) in
  <[site := <[pat := (default 0 (inner !! pat) + 1)%Z]> inner]> pats.

(** The loop over [i] from position [i] on, with register [cur]. *)
Fixpoint record_patterns (site : Z) (bs : list bool) (i : nat) (cur : Z)
    (pats : gmap Z (gmap Z Z)) : gmap Z (gmap Z Z) :=
  match bs with
  | [] => pats
  | b :: rest =>
      let cur' := pattern_step cur b in
      let pats' := if Nat.leb (history_m - 1) i then incr_pattern site cur' pats else pats in
      record_patterns site rest (S i) cur' pats'
  end.

(** One [branch] of [*m_state.branchOps]: add its length to
    [m_branchCounts], then extract patterns unless it is shorter than [m]. *)
Definition merge_branch (site : Z) (bs : list bool)
    (cp : gmap Z Z * gmap Z (gmap Z Z)) : gmap Z Z * gmap Z (gmap Z Z) :=
  let counts := add_at cp.1 site (Z.of_nat (length bs)) in
  if Nat.ltb (length bs) history_m then (counts, cp.2)
  else (counts, record_patterns site bs 0 0 cp.2).

Definition merge_branches (branch_ops : gmap Z (list bool))
    (cp : gmap Z Z * gmap Z (gmap Z Z)) : gmap Z Z * gmap Z (gmap Z Z) :=
  map_fold merge_branch cp branch_ops.

(** The weighted average of the group's per-barrier PSL records
    (lines 825-838). *)
Definition weighted_avg_psl (recs : list (list double * Z)) : list double :=
  let maxLength := fold_left (fun acc r => (acc + r.2)%Z) recs 0%Z in
  let w := map (fun nskip =>
                  fold_left (fun acc r =>
                               dadd acc (dmul (default (Fin 0%R) (r.1 !! nskip))
                                              (Fin (IZR r.2))))
                            recs (Fin 0%R))
               (seq 0 11) in
  if Z.eqb maxLength 0 then w
  else map (fun x => dmul x (Fin (/ IZR (maxLength + 1))%R)) w.

(** [workGroupComplete] (lines 744-840), under [m_mtx].  Returns the new
    plugin state and the worker state (ledger cleared, PSL record added). *)
Definition workGroupComplete (p : PluginState) (ws : WorkerState)
    : PluginState * WorkerState :=
  let a := agg p in
  let m := ws_maps ws in
  let c := ws_ctr ws in
  let cp := merge_branches (branchOps m) (m_branchCounts a, m_branchPatterns a) in
  let psl := parallelSpatialLocality (ws_ledger ws) in
  let maxLength := max_row_length (ws_ledger ws) in
  let recs := ws_psl_per_barrier ws ++ [(psl, Z.of_nat maxLength)] in
  let ws' := mkWorkerState (ws_allocated ws) m c (ws_branch ws)
               (map (fun _ => []) (ws_ledger ws)) recs in
  let a' := mkAggregate
              (merge_add (m_storeOps a) (storeOps m))
              (merge_add (m_loadOps a) (loadOps m))
              (merge_add (m_computeOps a) (computeOps m))
              cp.2 cp.1
              (m_instructionsToBarrier a ++ instructionsBetweenBarriers m)
              (merge_add (m_instructionWidth a) (instructionWidth m))
              (m_instructionsPerWorkitem a ++ instructionsPerWorkitem m)
              (m_instructionsBetweenLoadOrStore a ++ instructionsBetweenLoadOrStore m)
              (merge_add (m_loadInstructionLabels a) (loadInstructionLabels m))
              (merge_add (m_storeInstructionLabels a) (storeInstructionLabels m))
              (m_threads_invoked a + threads_invoked c)
              (m_barriers_hit a + barriers_hit c)
              (m_global_memory_access a + global_memory_access_count c)
              (m_local_memory_access a + local_memory_access_count c)
              (m_constant_memory_access a + constant_memory_access_count c)
              (m_psl_per_group a ++ [weighted_avg_psl recs]) in
  (mkPluginState a' (m_kernelInvocation p) (m_group_num p) (m_local_num p)
     (m_hostToDeviceCopy p) (m_deviceToHostCopy p)
     (m_numberOfHostToDeviceCopiesBeforeKernelNamed p) (m_last_kernel_name p), ws').

(** The loop [for (int i = 0; i < n; i++) h2d[end_of_list - i] = name].
    An index outside the vector is undefined behaviour in the source; here
    a negative one is skipped and [insert] ignores one past the end. *)
Fixpoint rename_last (h2d : list string) (end_of_list i : Z) (k : nat) (name : string)
    : list string :=
  match k with
  | O => h2d
  | S k' =>
      let idx := (end_of_list - i)%Z in
      let h2d' := if Z.leb 0 idx then <[Z.to_nat idx := name]> h2d else h2d in
      rename_last h2d' end_of_list (i + 1) k' name
  end.

(** [kernelBegin] (lines 267-300). *)
Definition kernelBegin (ki : KernelInvocation) (p : PluginState) : PluginState :=
  let name := ki_name ki in
  let end_of_list := (Z.of_nat (length (m_hostToDeviceCopy p)) - 1)%Z in
  let h2d := rename_last (m_hostToDeviceCopy p) end_of_list 0
               (Z.to_nat (m_numberOfHostToDeviceCopiesBeforeKernelNamed p)) name in
  let a' := mkAggregate ∅ ∅ ∅ ∅ ∅ [] ∅ [] [] ∅ ∅ 0 0 0 0 0 [] in
  mkPluginState a' (Some ki) (ki_num_groups ki) (ki_local_size ki)
    h2d (m_deviceToHostCopy p) 0 name.

(** [kernelEnd] (lines 674-691): [logMetrics] reads the state and writes
    the report; then the listed members are reset. *)
Definition kernelEnd (p : PluginState) : PluginState :=
  let a := agg p in
  let a' := mkAggregate ∅ ∅ ∅ ∅ ∅ [] (m_instructionWidth a) [] [] ∅ ∅ 0
              (m_barriers_hit a) (m_global_memory_access a) (m_local_memory_access a)
              (m_constant_memory_access a) (m_psl_per_group a) in
  mkPluginState a' None (m_group_num p) (m_local_num p)
    (m_hostToDeviceCopy p) (m_deviceToHostCopy p)
    (m_numberOfHostToDeviceCopiesBeforeKernelNamed p) (m_last_kernel_name p).

(** [hostMemoryLoad]: a device-to-host copy. *)
Definition hostMemoryLoad (p : PluginState) : PluginState :=
  mkPluginState (agg p) (m_kernelInvocation p) (m_group_num p) (m_local_num p)
    (m_hostToDeviceCopy p) (m_deviceToHostCopy p ++ [m_last_kernel_name p])
    (m_numberOfHostToDeviceCopiesBeforeKernelNamed p) (m_last_kernel_name p).

(** [hostMemoryStore]: a host-to-device copy. *)
Definition hostMemoryStore (p : PluginState) : PluginState :=
  mkPluginState (agg p) (m_kernelInvocation p) (m_group_num p) (m_local_num p)
    (m_hostToDeviceCopy p ++ [m_last_kernel_name p]) (m_deviceToHostCopy p)
    (m_numberOfHostToDeviceCopiesBeforeKernelNamed p + 1) (m_last_kernel_name p).

(** The constructor: [m_numberOfHostToDeviceCopiesBeforeKernelNamed = 0],
    [m_last_kernel_name] empty; the other members are default-constructed. *)
Definition empty_aggregate : Aggregate :=
  mkAggregate ∅ ∅ ∅ ∅ ∅ [] ∅ [] [] ∅ ∅ 0 0 0 0 0 [].

Definition initial_plugin : PluginState :=
  mkPluginState empty_aggregate None (mkSize3 0 0 0) (mkSize3 0 0 0) [] [] 0 EmptyString.

End Plugin.

(* ------------------------------------------------------------------ *)
(** ** [logMetrics]: memory rows and the parallelism reductions *)

Module Metrics.
Import Entropy Plugin.

(** [local_address_count[nskip][m.first >> nskip] += m.second] for every
    [m] of [m_storeOps], then of [m_loadOps] ([uint32_t] sums). *)
Definition combined_count (a : Aggregate) (nskip : Z) : gmap Z Z :=
  map_fold (bucket_step nskip) (map_fold (bucket_step nskip) ∅ (m_storeOps a))
    (m_loadOps a).

(** [memory_access_count]: the [size_t] sum of the counts of
    [sorted_count], a reordering of [local_address_count[0]]. *)
Definition memory_access_count (a : Aggregate) : Z :=
  map_fold (fun _ cnt acc => ((acc + cnt) mod two64)%Z) 0%Z (combined_count a 0).

(** [loc_entropy] (lines 478-486): skips 1..10, [prob = count /
    memory_access_count], no smoothing. *)
Definition loc_entropy (a : Aggregate) : list double :=
  map (fun nskip =>
         to_float (map_fold (fun _ cnt acc => dsub acc (plogp cnt (memory_access_count a)))
                            (Fin 0%R) (combined_count a nskip)))
      (map Z.of_nat (seq 1 10)).

(** A report cell: an integer, the two operands of a floating-point
    quotient, or a list of doubles. *)
Inductive cell :=
| CInt (z : Z)
| CQuot (num den : Z)
| CDoubles (l : list double).

(** Rows 629-647 of the report. *)
Definition memory_rows (a : Aggregate) : list (string * cell) :=
  [("num_memory_accesses", CInt (memory_access_count a));
   ("total_memory_footprint", CInt (Z.of_nat (size (combined_count a 0))));
   ("unique_reads", CInt (Z.of_nat (size (m_storeOps a))));
   ("unique_writes", CInt (Z.of_nat (size (m_loadOps a))));
   ("unique_read_write_ratio",
      CQuot (Z.of_nat (size (m_loadOps a))) (Z.of_nat (size (m_storeOps a))));
   ("LMAE", CDoubles (loc_entropy a))]%string.

(** Dereferencing an iterator: past the end is undefined behaviour. *)
Inductive ub (A : Type) :=
| Defined (x : A)
| Undefined.
Arguments Defined {A} x.
Arguments Undefined {A}.

Definition ub_bind {A B} (m : ub A) (k : A -> ub B) : ub B :=
  match m with Defined x => k x | Undefined => Undefined end.

Definition deref {A} (l : list A) (i : nat) : ub A :=
  match l !! i with Some x => Defined x | None => Undefined end.

(** [std::min_element] with comparator [lt]: the position of the first
    element no other one is [lt]; the end position for an empty range. *)
Fixpoint min_element_go {A} (lt : A -> A -> bool) (l : list A) (i best : nat) (bv : A)
    : nat :=
  match l with
  | [] => best
  | x :: r => if lt x bv then min_element_go lt r (S i) i x
              else min_element_go lt r (S i) best bv
  end.

Definition min_element {A} (lt : A -> A -> bool) (l : list A) : nat :=
  match l with
  | [] => 0%nat
  | x :: r => min_element_go lt r 1 0 x
  end.

(** [std::max_element]: the first largest, i.e. [min_element] for the
    flipped comparator. *)
Definition max_element {A} (lt : A -> A -> bool) (l : list A) : nat :=
  min_element (fun x y => lt y x) l.

(** [itb_min], [itb_max], [ipt_min], [ipt_max], [simd_min], [simd_max]
    (lines 378-409), in the order the source evaluates them.  The SIMD
    reductions range over the entries of [m_instructionWidth] compared by
    key. *)
Definition parallelism_reductions (a : Aggregate) : ub (Z * Z * Z * Z * Z * Z) :=
  let itb := m_instructionsToBarrier a in
  let ipt := m_instructionsPerWorkitem a in
  let w := map_to_list (m_instructionWidth a) in
  let klt := fun (x y : Z * Z) => Z.ltb x.1 y.1 in
  ub_bind (deref itb (min_element Z.ltb itb)) (fun itb_min =>
  ub_bind (deref itb (max_element Z.ltb itb)) (fun itb_max =>
  ub_bind (deref ipt (min_element Z.ltb ipt)) (fun ipt_min =>
  ub_bind (deref ipt (max_element Z.ltb ipt)) (fun ipt_max =>
  ub_bind (deref w (min_element klt w)) (fun smin =>
  ub_bind (deref w (max_element klt w)) (fun smax =>
  Defined (itb_min, itb_max, ipt_min, ipt_max, smin.1, smax.1))))))).

End Metrics.

(* ------------------------------------------------------------------ *)
(** ** The memory-transfer sidecar ([~WorkloadCharacterisation]) *)

Module Transfer.
Import Plugin.

(** [std::unique]: drop every element equal to its predecessor. *)
Fixpoint unique (l : list string) : list string :=
  match l with
  | [] => []
  | x :: r =>
      match r with
      | y :: _ => if String.eqb x y then unique r else x :: unique r
      | [] => [x]
      end
  end.

(** [std::count]. *)
Definition count (l : list string) (x : string) : Z :=
  Z.of_nat (length (filter (fun y => String.eqb y x) l)).

(** The claim's reading of a log: [ks] names its maximal runs of
    adjacent equal names, in order ([ns] their lengths). *)
Definition maximal_runs (l ks : list string) : Prop :=
  exists ns : list nat,
    length ns = length ks /\ Forall (fun n => 1 <= n)%nat ns /\
    l = concat (zip_with (fun n k => replicate n k) ns ks) /\
    forall i x y, ks !! i = Some x -> ks !! S i = Some y -> x <> y.

(** The rows written after the header, host-to-device first. *)
Definition transfer_rows (p : PluginState) : list (string * string * Z) :=
  map (fun k => ("transfer: host to device", k, count (m_hostToDeviceCopy p) k)%string)
      (unique (m_hostToDeviceCopy p)) ++
  map (fun k => ("transfer: device to host", k, count (m_deviceToHostCopy p) k)%string)
      (unique (m_deviceToHostCopy p)).

Definition transfer_logfile_name (n : nat) : string :=
  ("aiwc_memory_transfers_" +:+ pretty (N.of_nat n) +:+ ".csv")%string.

(** The [while (true)] loop of lines 65-71, [file_exists] standing for
    [std::ifstream(logfile_name)] converting to [true].  [None]: the loop
    has not exited after [fuel] iterations. *)
Fixpoint pick_transfer_logfile (file_exists : string -> bool) (fuel n : nat)
    : option string :=
  match fuel with
  | O => None
  | S f =>
      let logfile_name := transfer_logfile_name n in
      if file_exists logfile_name then Some logfile_name
      else pick_transfer_logfile file_exists f (S n)
  end.

(** The same loop in [logMetrics] (lines 582-588), which exits on
    [!std::ifstream(logfile_name)]. *)
Fixpoint pick_report_logfile (file_exists : string -> bool) (prefix kernel : string)
    (fuel n : nat) : option string :=
  match fuel with
  | O => None
  | S f =>
      let logfile_name :=
        (prefix +:+ "aiwc_" +:+ kernel +:+ "_" +:+ pretty (N.of_nat n) +:+ ".csv")%string in
      if negb (file_exists logfile_name) then Some logfile_name
      else pick_report_logfile file_exists prefix kernel f (S n)
  end.

(** What the destructor does: the file it opens and, when the open
    succeeds, the rows it writes. *)
Inductive TeardownOutcome :=
| Written (logfile_name : string) (rows : list (string * string * Z))
| OpenFailed (logfile_name : string)
| StillSearching.

Definition teardown (file_exists : string -> bool) (can_open : string -> bool)
    (fuel : nat) (p : PluginState) : TeardownOutcome :=
  match pick_transfer_logfile file_exists fuel 0 with
  | None => StillSearching
  | Some name => if can_open name then Written name (transfer_rows p) else OpenFailed name
  end.

End Transfer.

(* ------------------------------------------------------------------ *)
(** ** Properties stated about the model *)

Module Props.
Import Entropy Plugin.

(** Per site: the count is 0 with no pattern recorded, or the pattern
    occurrences are fewer than the count. *)
Definition branch_inv (cp : gmap Z Z * gmap Z (gmap Z Z)) : Prop :=
  forall s,
    (default 0 (cp.1 !! s) = 0 /\ spec_total (default ∅ (cp.2 !! s)) = 0)%Z \/
    (0 <= spec_total (default ∅ (cp.2 !! s)) < default 0 (cp.1 !! s))%Z.

(** The aggregate after [kernelBegin] and the merge of the given
    work-groups' worker states, in merge order. *)
Definition merged (ki : KernelInvocation) (p : PluginState) (workers : list WorkerState)
    : PluginState :=
  fold_left (fun p ws => fst (workGroupComplete p ws)) workers (kernelBegin ki p).

(** An aggregate holding only the given store and load maps. *)
Definition ops_aggregate (stores loads : gmap Z Z) : Aggregate :=
  mkAggregate stores loads ∅ ∅ ∅ [] ∅ [] [] ∅ ∅ 0 0 0 0 0 [].

Definition unit_local : Size3 := mkSize3 1 1 1.
Definition origin : Size3 := mkSize3 0 0 0.

(** One work-item of a one-item work-group loading the 1024 consecutive
    4-byte words from global address [0x1000] on. *)
Definition sequential_loads : list WGEvent :=
  EvItemBegin ::
  map (fun i => EvLoad 1 (4096 + 4 * Z.of_nat i) origin) (seq 0 1024) ++
  [EvItemComplete].

Definition sequential_load_invocation : PluginState :=
  merged (mkKernelInvocation "sequential" false unit_local unit_local) initial_plugin
    [run_group unit_local initial_worker sequential_loads].

(** The addresses a work-group's events store to and load from, outside
    private memory, in event order. *)
Fixpoint store_addrs (evs : list WGEvent) : list Z :=
  match evs with
  | [] => []
  | EvStore sp a _ :: r =>
      if Z.eqb sp AddrSpacePrivate then store_addrs r else a :: store_addrs r
  | _ :: r => store_addrs r
  end.

Fixpoint load_addrs (evs : list WGEvent) : list Z :=
  match evs with
  | [] => []
  | EvLoad sp a _ :: r =>
      if Z.eqb sp AddrSpacePrivate then load_addrs r else a :: load_addrs r
  | _ :: r => load_addrs r
  end.

(** An invocation whose work-groups are run from the given worker states
    with the given events, and merged in that order. *)
Definition invocation (ki : KernelInvocation) (p : PluginState)
    (groups : list (WorkerState * list WGEvent)) : PluginState :=
  merged ki p (map (fun g => run_group (ki_local_size ki) g.1 g.2) groups).

(** The plugin callbacks outside the work-group hot path, as one trace. *)
Inductive HostEvent :=
| HStore
| HLoad
| HKernelBegin (ki : KernelInvocation)
| HKernelEnd
| HGroupComplete (ws : WorkerState).

Definition host_step (p : PluginState) (e : HostEvent) : PluginState :=
  match e with
  | HStore => hostMemoryStore p
  | HLoad => hostMemoryLoad p
  | HKernelBegin ki => kernelBegin ki p
  | HKernelEnd => kernelEnd p
  | HGroupComplete ws => fst (workGroupComplete p ws)
  end.

Definition run_host (evs : list HostEvent) : PluginState :=
  fold_left host_step evs initial_plugin.

Fixpoint take_while {A} (P : A -> bool) (l : list A) : list A :=
  match l with
  | [] => []
  | x :: r => if P x then x :: take_while P r else []
  end.

Definition is_kernel_begin (e : HostEvent) : bool :=
  match e with HKernelBegin _ => true | _ => false end.

Definition is_host_store (e : HostEvent) : bool :=
  match e with HStore => true | _ => false end.

(** The events after the last kernel begin (all of them if there is none). *)
Definition since_last_kernel (evs : list HostEvent) : list HostEvent :=
  rev (take_while (fun e => negb (is_kernel_begin e)) (rev evs)).

(** Host-to-device copies made since the last kernel was named. *)
Definition unnamed_copies (evs : list HostEvent) : nat :=
  length (List.filter is_host_store (since_last_kernel evs)).

End Props.

(* ------------------------------------------------------------------ *)
(** ** [instructionExecuted] (lines 143-228) *)

Module Instr.
Import Plugin.

(** Address spaces of Oclgrind's [common.h] ([AddrSpacePrivate] is 0). *)
Definition AddrSpaceGlobal : Z := 1.
Definition AddrSpaceConstant : Z := 2.
Definition AddrSpaceLocal : Z := 3.

(** The opcode number of [llvm::Instruction::Br]. *)
Definition Br : Z := 2.

(** [llvm::dyn_cast] to [LoadInst] / [StoreInst], with the pointer
    operand's address space and name. *)
Inductive MemInst :=
| NotMemory
| LoadInst (space : Z) (name : string)
| StoreInst (space : Z) (name : string).

(** What the callback reads of an [llvm::Instruction]: its address (the
    key of [branchOps]), opcode, parent basic block, load/store kind,
    number of operands, and operands 1 and 2 when both have label type. *)
Record Instruction := mkInstruction {
  i_ptr : Z;
  i_opcode : Z;
  i_parent : Z;
  i_mem : MemInst;
  i_num_operands : nat;
  i_label_operands : option (Z * Z) }.

(** [map[key]++] on a [size_t] value. *)
Definition incr64 {K} `{Countable K} (m : gmap K Z) (k : K) : gmap K Z :=
  <[k := ((default 0 (m !! k) + 1) mod two64)%Z]> m.

(** [m_state.branchOps[branch_loc].push_back(b)]. *)
Definition push_outcome (bo : gmap Z (list bool)) (k : Z) (b : bool) : gmap Z (list bool) :=
  <[k := default [] (bo !! k) ++ [b]]> bo.

(** The callback.  [None]: the block reached after a conditional branch
    is neither of its targets, and the source raises [SIGINT].  A null
    [branch_loc] is the key 0.  [result_num] is [result.num], converted to
    the [uint16_t] key of [instructionWidth]. *)
Definition instructionExecuted (ws : WorkerState) (ins : Instruction) (result_num : Z)
    : option WorkerState :=
  let m := ws_maps ws in
  let c := ws_ctr ws in
  let br := ws_branch ws in
  let computeOps' := incr64 (computeOps m) (i_opcode ins) in
  let ops := (ops_between_load_or_store c + 1)%Z in
  let '(loadL, storeL, betweenLS, ops', space) :=
    match i_mem ins with
    | NotMemory =>
        (loadInstructionLabels m, storeInstructionLabels m,
         instructionsBetweenLoadOrStore m, ops, None)
    | LoadInst sp name =>
        (incr64 (loadInstructionLabels m) name, storeInstructionLabels m,
         push32 (instructionsBetweenLoadOrStore m) ops, 0%Z, Some sp)
    | StoreInst sp name =>
        (loadInstructionLabels m, incr64 (storeInstructionLabels m) name,
         push32 (instructionsBetweenLoadOrStore m) ops, 0%Z, Some sp)
    end in
  let lc := local_memory_access_count c in
  let gc := global_memory_access_count c in
  let cc := constant_memory_access_count c in
  let '(lc', gc', cc') :=
    match space with
    | Some sp =>
        if Z.eqb sp AddrSpaceLocal then ((lc + 1)%Z, gc, cc)
        else if Z.eqb sp AddrSpaceGlobal then (lc, (gc + 1)%Z, cc)
        else if Z.eqb sp AddrSpaceConstant then (lc, gc, (cc + 1)%Z)
        else (lc, gc, cc)
    | None => (lc, gc, cc)
    end in
  let branch_result :=
    if previous_instruction_is_branch br then
      let key := default 0%Z (branch_loc br) in
      if decide (target1 br = Some (i_parent ins)) then
        Some (push_outcome (branchOps m) key true)
      else if decide (target2 br = Some (i_parent ins)) then
        Some (push_outcome (branchOps m) key false)
      else None
    else Some (branchOps m) in
  match branch_result with
  | None => None
  | Some branchOps' =>
      let br' :=
        if Z.eqb (i_opcode ins) Br && Nat.eqb (i_num_operands ins) 3 then
          match i_label_operands ins with
          | Some (t1, t2) => mkBranchState true (Some t1) (Some t2) (Some (i_ptr ins))
          | None => mkBranchState false (target1 br) (target2 br) (branch_loc br)
          end
        else mkBranchState false (target1 br) (target2 br) (branch_loc br) in
      Some (mkWorkerState (ws_allocated ws)
              (mkWorkerMaps (storeOps m) (loadOps m) computeOps' branchOps'
                 (instructionsBetweenBarriers m)
                 (incr64 (instructionWidth m) (result_num mod 65536)%Z)
                 (instructionsPerWorkitem m) betweenLS loadL storeL)
              (mkWorkerCounters (threads_invoked c) (instruction_count c + 1)
                 (workitem_instruction_count c + 1) ops' (barriers_hit c) cc' lc' gc')
              br' (ws_ledger ws) (ws_psl_per_barrier ws))
  end.

(** A run of instructions with their results, stopping at the first
    abort. *)
Fixpoint run_instrs (ws : WorkerState) (l : list (Instruction * Z)) : option WorkerState :=
  match l with
  | [] => Some ws
  | (ins, r) :: rest =>
      match instructionExecuted ws ins r with
      | None => None
      | Some ws' => run_instrs ws' rest
      end
  end.

(** The number of instructions of a run that are loads or stores (in the
    given address space). *)
Definition is_mem (ins : Instruction) : bool :=
  match i_mem ins with NotMemory => false | _ => true end.

Definition mem_in_space (sp : Z) (ins : Instruction) : bool :=
  match i_mem ins with
  | NotMemory => false
  | LoadInst s _ | StoreInst s _ => Z.eqb s sp
  end.

(** The test of lines 218-226: a [br] with three operands, two of them
    labels. *)
Definition is_cond_branch (ins : Instruction) : bool :=
  Z.eqb (i_opcode ins) Br && Nat.eqb (i_num_operands ins) 3 &&
  match i_label_operands ins with Some _ => true | None => false end.

(** The number of outcomes recorded over all branch sites. *)
Definition history_total (bo : gmap Z (list bool)) : nat :=
  map_fold (fun _ l acc => (length l + acc)%nat) 0%nat bo.

End Instr.

(* ------------------------------------------------------------------ *)
(** ** More of [logMetrics] *)

Module Report.
Import Entropy Plugin Metrics.

(** [while (p) { p &= p - 1; taken++; }]; [None] when [fuel] iterations
    did not end the loop. *)
Fixpoint kernighan_go (fuel : nat) (p taken : Z) : option Z :=
  match fuel with
  | O => None
  | S f => if Z.eqb p 0 then Some taken else kernighan_go f (Z.land p (p - 1)) (taken + 1)
  end.

(** The loop on a [uint16_t] pattern: 17 iterations are enough. *)
Definition kernighan (p : Z) : Z := default 0%Z (kernighan_go 17 p 0).

(** The number of set bits among the 16 bits of a pattern. *)
Definition popcount16 (p : Z) : Z :=
  fold_right (fun i acc => ((if Z.testbit p (Z.of_nat i) then 1 else 0) + acc)%Z) 0%Z
    (seq 0 16).

(** The accumulators of the branch-entropy loop (lines 531-555):
    [average_entropy], [yokota_entropy], [yokota_entropy_per_workload]
    and the [unsigned] [N]. *)
Record BranchAcc := mkBranchAcc { ba_sum : R; ba_yokota : R; ba_yokota_pw : R; ba_n : Z }.

(** One history pattern [h] of one branch. *)
Definition branch_pattern_step (pattern occ : Z) (acc : BranchAcc) : BranchAcc :=
  let number_of_occurrences := (occ mod two32)%Z in
  let taken := kernighan pattern in
  let not_taken := (16 - taken)%Z in
  let probability_of_taken := (IZR taken / IZR (not_taken + taken))%R in
  let '(y, ypw) :=
    if Req_EM_T probability_of_taken 0 then (ba_yokota acc, ba_yokota_pw acc)
    else ((ba_yokota acc - IZR number_of_occurrences * probability_of_taken
                                * log2 probability_of_taken)%R,
          (ba_yokota_pw acc - probability_of_taken * log2 probability_of_taken)%R) in
  let linear_branch_entropy := (2 * Rmin probability_of_taken (1 - probability_of_taken))%R in
  mkBranchAcc (ba_sum acc + IZR number_of_occurrences * linear_branch_entropy)%R y ypw
    ((ba_n acc + number_of_occurrences) mod two32)%Z.

Definition branch_acc (pats : gmap Z (gmap Z Z)) : BranchAcc :=
  map_fold (fun _ inner acc => map_fold branch_pattern_step acc inner)
    (mkBranchAcc 0 0 0 0) pats.

(** [average_entropy / N], with [NaN] replaced by 0: [0 / 0] is [NaN], a
    positive sum over [N = 0] is an infinity, which is kept. *)
Definition average_linear_branch_entropy (pats : gmap Z (gmap Z Z)) : double :=
  let acc := branch_acc pats in
  if Z.eqb (ba_n acc) 0 then
    (if Req_EM_T (ba_sum acc) 0 then Fin 0%R else NonFinite)
  else Fin (ba_sum acc / IZR (ba_n acc))%R.

(** [itb_median] / [ipt_median] (lines 382-406): sort, then the middle
    element or the [uint32_t] average of the two middle ones.  The index
    [size / 2 - 1] is a [size_t]: for an empty vector it wraps around. *)
Definition median (v : list Z) : ub Z :=
  let itb := merge_sort Z.le v in
  let size := Z.of_nat (length itb) in
  if Z.eqb (size mod 2) 0 then
    ub_bind (deref itb (Z.to_nat ((size / 2 - 1) mod two64))) (fun lo =>
    ub_bind (deref itb (Z.to_nat (size / 2))) (fun hi =>
    Defined (((lo + hi) mod two32) / 2)%Z))
  else deref itb (Z.to_nat (size / 2)).

(** [while (access_count < significant) access_count +=
    sorted_count[unique_memory_addresses++].second;]. *)
Fixpoint footprint_go (sorted : list Z) (k : nat) (access_count target : Z) : ub nat :=
  if Z.ltb access_count target then
    match sorted with
    | [] => Undefined
    | x :: r => footprint_go r (S k) ((access_count + x) mod two64) target
    end
  else Defined k.

(** [memory_footprint_90pc] for the counts of [sorted_count] in their
    sorted order: [memory_access_count] is their [size_t] sum and the
    target is [ceil(memory_access_count * 0.9)]. *)
Definition footprint_90pc (counts : list Z) : ub nat :=
  let total := fold_left (fun acc c => (acc + c) mod two64)%Z counts 0%Z in
  footprint_go counts 0 0 ((9 * total + 9) / 10)%Z.

(** IEEE division: by zero it is [NaN] or an infinity. *)
Definition ddiv (a b : double) : double :=
  match a, b with
  | Fin x, Fin y => if Req_EM_T y 0 then NonFinite else Fin (x / y)%R
  | _, _ => NonFinite
  end.

(** [avg_psl] (lines 488-497): indexes [m_psl_per_group[0]] and
    [m_psl_per_group[j][i]] unguarded. *)
Definition normed_psl (psl_per_group : list (list double)) (local_num : Size3)
    : ub (list double) :=
  let items_per_group := ((sx local_num * sy local_num * sz local_num) mod two32)%Z in
  ub_bind (deref psl_per_group 0) (fun first =>
    fold_left (fun acc i =>
      ub_bind acc (fun out =>
      ub_bind (fold_left (fun s row => ub_bind s (fun s =>
                  ub_bind (deref row i) (fun x => Defined (dadd s x))))
                psl_per_group (Defined (Fin 0%R))) (fun s =>
      Defined (out ++ [ddiv (ddiv s (Fin (INR (length psl_per_group))))
                            (Fin (log2 (IZR (items_per_group + 1))))]))))
      (seq 0 (length first)) (Defined [])).

(** [f] holds at the [n] integers from [z] on. *)
Fixpoint all_from (f : Z -> bool) (n : nat) (z : Z) : bool :=
  match n with
  | O => true
  | S k => f z && all_from f k (z + 1)
  end.

(** The exact number of pattern occurrences recorded over all sites. *)
Definition pattern_occurrences (pats : gmap Z (gmap Z Z)) : Z :=
  map_fold (fun _ inner acc => (spec_total inner + acc)%Z) 0%Z pats.

(** The candidate name of [logMetrics] for [logfile_count = n]
    (line 584). *)
Definition report_logfile_name (prefix kernel : string) (n : nat) : string :=
  (prefix +:+ "aiwc_" +:+ kernel +:+ "_" +:+ pretty (N.of_nat n) +:+ ".csv")%string.

End Report.

(* ------------------------------------------------------------------ *)
(** ** Traces of whole threads and of the host *)

Module Traces.
Import Plugin Props Transfer.

(** The name of the first kernel named in a trace. *)
Fixpoint next_kernel (evs : list HostEvent) : option string :=
  match evs with
  | [] => None
  | HKernelBegin ki :: _ => Some (ki_name ki)
  | _ :: r => next_kernel r
  end.

(** For each host-to-device copy of a trace, in order: the next kernel
    named after it, or, when there is none, the last one named before it
    ([last] before the trace). *)
Fixpoint h2d_attr (evs : list HostEvent) (last : string) : list string :=
  match evs with
  | [] => []
  | HStore :: r => default last (next_kernel r) :: h2d_attr r last
  | HKernelBegin ki :: r => h2d_attr r (ki_name ki)
  | _ :: r => h2d_attr r last
  end.

(** For each device-to-host copy, in order: the last kernel named before it. *)
Fixpoint d2h_attr (evs : list HostEvent) (last : string) : list string :=
  match evs with
  | [] => []
  | HLoad :: r => last :: d2h_attr r last
  | HKernelBegin ki :: r => d2h_attr r (ki_name ki)
  | _ :: r => d2h_attr r last
  end.

(** Work-groups run one after the other on one thread: [workGroupBegin],
    the events, [workGroupComplete], with the worker state carried over. *)
Definition group_on_thread (local_num : Size3) (pw : PluginState * WorkerState)
    (evs : list WGEvent) : PluginState * WorkerState :=
  workGroupComplete pw.1 (run_group local_num pw.2 evs).

Definition run_thread (local_num : Size3) (p : PluginState) (ws : WorkerState)
    (groups : list (list WGEvent)) : PluginState * WorkerState :=
  fold_left (group_on_thread local_num) groups (p, ws).

Definition count_ev (f : WGEvent -> bool) (evs : list WGEvent) : nat :=
  length (List.filter f evs).

Definition is_item_begin (e : WGEvent) : bool :=
  match e with EvItemBegin => true | _ => false end.
Definition is_item_complete (e : WGEvent) : bool :=
  match e with EvItemComplete => true | _ => false end.
Definition is_item_barrier (e : WGEvent) : bool :=
  match e with EvItemBarrier => true | _ => false end.
Definition is_group_barrier (e : WGEvent) : bool :=
  match e with EvGroupBarrier => true | _ => false end.

(** Non-private loads and stores of one address. *)
Definition is_load_of (x : Z) (e : WGEvent) : bool :=
  match e with EvLoad sp a _ => negb (Z.eqb sp AddrSpacePrivate) && Z.eqb a x | _ => false end.
Definition is_store_of (x : Z) (e : WGEvent) : bool :=
  match e with EvStore sp a _ => negb (Z.eqb sp AddrSpacePrivate) && Z.eqb a x | _ => false end.

End Traces.

(* ================================================================== *)
(** * Facts *)

Module EntropyFacts.
Import Entropy.

Lemma spec_total_insert (m : gmap Z Z) i x :
  m !! i = None -> spec_total (<[i:=x]> m) = (x + spec_total m)%Z.
Proof.
  intros Hi. unfold spec_total.
  rewrite map_fold_insert_L; [reflexivity| |exact Hi]. intros; lia.
Qed.

Lemma spec_total_delete (m : gmap Z Z) i x :
  m !! i = Some x -> spec_total m = (x + spec_total (delete i m))%Z.
Proof.
  intros Hi. unfold spec_total.
  rewrite (map_fold_delete_L _ _ i x m); [reflexivity| |exact Hi]. intros; lia.
Qed.

Lemma spec_total_insert_add (m : gmap Z Z) b c :
  spec_total (<[b := (default 0 (m !! b) + c)%Z]> m) = (c + spec_total m)%Z.
Proof.
  destruct (m !! b) as [v|] eqn:Hb; simpl.
  - rewrite <- insert_delete_eq, spec_total_insert by apply lookup_delete_eq.
    rewrite (spec_total_delete m b v Hb). lia.
  - rewrite spec_total_insert by exact Hb. lia.
Qed.


Lemma sum_nonneg (l : list (Z * Z)) :
  Forall (fun p => 0 < p.2)%Z l ->
  (0 <= foldr (uncurry (fun (_ : Z) cnt acc => cnt + acc)%Z) 0%Z l)%Z.
Proof.
  induction l as [|[a c] l IH]; intros Hl; simpl; [lia|].
  apply Forall_cons in Hl as [Hc Hl]. simpl in Hc. specialize (IH Hl). lia.
Qed.

Lemma spec_bucket_foldr_props nskip (l : list (Z * Z)) :
  Forall (fun p => 0 < p.2)%Z l ->
  spec_total (foldr (uncurry (spec_bucket_step nskip)) ∅ l)
    = foldr (uncurry (fun (_ : Z) cnt acc => cnt + acc)%Z) 0%Z l /\
  (forall b v, foldr (uncurry (spec_bucket_step nskip)) ∅ l !! b = Some v ->
     0 < v <= foldr (uncurry (fun (_ : Z) cnt acc => cnt + acc)%Z) 0%Z l)%Z.
Proof.
  induction l as [|[a c] l IH]; intros Hl; cbn [foldr uncurry].
  - split; [reflexivity|]. intros b v Hv. rewrite lookup_empty in Hv. discriminate.
  - pose proof (sum_nonneg l) as Hn.
    apply Forall_cons in Hl as [Hc Hl]. simpl in Hc.
    destruct (IH Hl) as [Hs Hb]. specialize (Hn Hl).
    set (m := foldr (uncurry (spec_bucket_step nskip)) ∅ l) in *.
    unfold spec_bucket_step. split.
    + rewrite spec_total_insert_add. lia.
    + intros b v Hv. destruct (decide (b = Z.shiftr a nskip)) as [->|Hne].
      * rewrite lookup_insert_eq in Hv. injection Hv as <-.
        destruct (m !! Z.shiftr a nskip) as [w|] eqn:E; simpl.
        -- apply Hb in E. lia.
        -- lia.
      * rewrite lookup_insert_ne in Hv by congruence. apply Hb in Hv. lia.
Qed.

Lemma bucket_foldr_eq nskip (l : list (Z * Z)) :
  Forall (fun p => 0 < p.2)%Z l ->
  (forall b v, foldr (uncurry (spec_bucket_step nskip)) ∅ l !! b = Some v -> v < two32)%Z ->
  foldr (uncurry (bucket_step nskip)) ∅ l = foldr (uncurry (spec_bucket_step nskip)) ∅ l.
Proof.
  induction l as [|[a c] l IH]; intros Hl Hs; cbn [foldr uncurry] in *; [reflexivity|].
  apply Forall_cons in Hl as [Hc Hl]. simpl in Hc.
  destruct (spec_bucket_foldr_props nskip l Hl) as [_ Hb].
  set (m := foldr (uncurry (spec_bucket_step nskip)) ∅ l) in *.
  set (k := Z.shiftr a nskip).
  assert (Hk : (default 0 (m !! k) + c < two32)%Z).
  { apply (Hs k). unfold spec_bucket_step. fold k. apply lookup_insert_eq. }
  assert (Hm : forall b v, m !! b = Some v -> (v < two32)%Z).
  { intros b v Hv. destruct (decide (b = k)) as [->|Hne].
    - rewrite Hv in Hk. simpl in Hk. lia.
    - apply (Hs b). unfold spec_bucket_step. fold k.
      rewrite lookup_insert_ne by congruence. exact Hv. }
  rewrite (IH Hl Hm).
  unfold bucket_step, spec_bucket_step. fold k. f_equal.
  destruct (m !! k) as [w|] eqn:E; simpl in *.
  - apply Hb in E. apply Z.mod_small. lia.
  - apply Z.mod_small. lia.
Qed.

Lemma total_foldr_eq (l : list (Z * Z)) :
  Forall (fun p => 0 < p.2)%Z l ->
  (foldr (uncurry (fun (_ : Z) cnt acc => cnt + acc)%Z) 0%Z l < two64)%Z ->
  foldr (uncurry (fun (_ : Z) cnt acc => (acc + cnt) mod two64)%Z) 0%Z l
    = foldr (uncurry (fun (_ : Z) cnt acc => cnt + acc)%Z) 0%Z l.
Proof.
  induction l as [|[a c] l IH]; intros Hl Hs; cbn [foldr uncurry] in *; [reflexivity|].
  pose proof (sum_nonneg l) as Hn.
  apply Forall_cons in Hl as [Hc Hl]. simpl in Hc. specialize (Hn Hl).
  rewrite IH by (auto; lia). rewrite Z.mod_small by lia. lia.
Qed.

Lemma local_entropy_foldr (d : Z) (l : list (Z * Z)) :
  Forall (fun p => 0 < p.2)%Z l -> (0 < d)%Z ->
  foldr (uncurry (fun (_ : Z) cnt acc => dsub acc (plogp cnt d))) (Fin 0) l
  = Fin (- foldr (uncurry (plogp_real (IZR d))) 0 l)%R.
Proof.
  intros Hl Hd. induction l as [|[a c] l IH]; simpl in *.
  - f_equal. lra.
  - apply Forall_cons in Hl as [Hc Hl]. simpl in Hc. rewrite (IH Hl).
    set (S := foldr (uncurry (plogp_real (IZR d))) 0%R l) in *.
    unfold plogp, plogp_real.
    replace (Z.eqb c 0 || Z.eqb d 0) with false
      by (symmetry; apply orb_false_iff; split; apply Z.eqb_neq; lia).
    simpl. f_equal. lra.
Qed.

Lemma ln_le_mono (x y : R) : (0 < x)%R -> (x <= y)%R -> (ln x <= ln y)%R.
Proof.
  intros Hx [Hlt|Heq]; [left; apply ln_increasing; assumption|subst; lra].
Qed.

Lemma ln2_pos : (0 < ln 2)%R.
Proof. pose proof ln_lt_2. lra. Qed.

Lemma log2_nonneg (x : R) : (1 <= x)%R -> (0 <= log2 x)%R.
Proof.
  intros Hx. unfold log2. pose proof ln2_pos as H2.
  pose proof (ln_le_mono 1 x ltac:(lra) Hx) as Hl. rewrite ln_1 in Hl.
  unfold Rdiv. apply Rmult_le_pos; [lra|]. left. apply Rinv_0_lt_compat. lra.
Qed.

Lemma plogp_bounds (c N : R) :
  (1 <= c <= N)%R ->
  (0 <= - ((c / N) * log2 (c / N)) <= (c / N) * log2 N)%R.
Proof.
  intros Hc. pose proof ln2_pos as H2.
  assert (HN : (0 < N)%R) by lra.
  assert (Hp : (0 <= c / N)%R)
    by (unfold Rdiv; apply Rmult_le_pos; [lra|left; apply Rinv_0_lt_compat; lra]).
  assert (Hl : ln (c / N) = (ln c - ln N)%R).
  { unfold Rdiv. rewrite ln_mult, ln_Rinv by (try apply Rinv_0_lt_compat; lra). ring. }
  pose proof (ln_le_mono 1 c ltac:(lra) ltac:(lra)) as H1. rewrite ln_1 in H1.
  pose proof (ln_le_mono c N ltac:(lra) ltac:(lra)) as H3.
  assert (Hi : (0 < / ln 2)%R) by (apply Rinv_0_lt_compat; lra).
  unfold log2. rewrite Hl.
  replace (- (c / N * ((ln c - ln N) / ln 2)))%R
    with (c / N * ((ln N - ln c) * / ln 2))%R by (unfold Rdiv; ring).
  replace (c / N * (ln N / ln 2))%R with (c / N * (ln N * / ln 2))%R
    by (unfold Rdiv; ring).
  split.
  - apply Rmult_le_pos; [lra|]. apply Rmult_le_pos; lra.
  - apply Rmult_le_compat_l; [lra|]. apply Rmult_le_compat_r; lra.
Qed.

Lemma entropy_sum_bounds (Nz : Z) (l : list (Z * Z)) :
  Forall (fun p => 1 <= p.2 <= Nz)%Z l ->
  (0 <= - foldr (uncurry (plogp_real (IZR Nz))) 0 l
     <= IZR (foldr (uncurry (fun (_ : Z) cnt acc => cnt + acc)%Z) 0%Z l)
          / IZR Nz * log2 (IZR Nz))%R.
Proof.
  induction l as [|[a c] l IH]; intros Hl; cbn [foldr uncurry] in *.
  - unfold Rdiv. rewrite Rmult_0_l, Rmult_0_l. lra.
  - apply Forall_cons in Hl as [Hc Hl]. simpl in Hc. specialize (IH Hl).
    pose proof (plogp_bounds (IZR c) (IZR Nz)) as Hb.
    assert (Hc' : (1 <= IZR c <= IZR Nz)%R)
      by (split; apply IZR_le; lia).
    specialize (Hb Hc').
    set (S := foldr (uncurry (plogp_real (IZR Nz))) 0%R l) in *.
    unfold plogp_real. rewrite plus_IZR.
    replace ((IZR c + IZR (foldr (uncurry (fun (_ : Z) cnt acc => cnt + acc)%Z) 0%Z l))
               / IZR Nz * log2 (IZR Nz))%R
      with (IZR c / IZR Nz * log2 (IZR Nz)
            + IZR (foldr (uncurry (fun (_ : Z) cnt acc => cnt + acc)%Z) 0%Z l)
               / IZR Nz * log2 (IZR Nz))%R by (unfold Rdiv; ring).
    lra.
Qed.

Lemma map_to_list_pos (m : gmap Z Z) :
  (forall a c, m !! a = Some c -> 0 < c)%Z ->
  Forall (fun p => 0 < p.2)%Z (map_to_list m).
Proof.
  intros Hm. apply Forall_forall. intros [a c] Hin.
  apply elem_of_map_to_list in Hin. simpl. eauto.
Qed.

Lemma spec_total_foldr (m : gmap Z Z) :
  spec_total m = foldr (uncurry (fun (_ : Z) cnt acc => cnt + acc)%Z) 0%Z (map_to_list m).
Proof. unfold spec_total. apply map_fold_foldr. Qed.

Lemma spec_total_nonneg (m : gmap Z Z) :
  (forall a c, m !! a = Some c -> 0 < c)%Z -> (0 <= spec_total m)%Z.
Proof. intros Hm. rewrite spec_total_foldr. apply sum_nonneg, map_to_list_pos, Hm. Qed.

Lemma spec_bucket_0 (h : gmap Z Z) : spec_bucket 0 h = h.
Proof.
  unfold spec_bucket.
  apply (map_fold_weak_ind (fun r m => r = m)); [reflexivity|].
  intros i x m r Hi ->. unfold spec_bucket_step.
  rewrite Z.shiftr_0_r, Hi. simpl. rewrite Z.add_0_l. reflexivity.
Qed.

Lemma spec_bucket_props nskip (h : gmap Z Z) :
  (forall a c, h !! a = Some c -> 0 < c)%Z ->
  spec_total (spec_bucket nskip h) = spec_total h /\
  (forall b v, spec_bucket nskip h !! b = Some v -> 0 < v <= spec_total h)%Z.
Proof.
  intros Hp. unfold spec_bucket. rewrite map_fold_foldr.
  rewrite (spec_total_foldr h).
  apply spec_bucket_foldr_props, map_to_list_pos, Hp.
Qed.

Lemma local_address_count_eq (h : gmap Z Z) nskip :
  (forall a c, h !! a = Some c -> 0 < c)%Z ->
  (nskip <> 0 -> forall b v, spec_bucket nskip h !! b = Some v -> v < two32)%Z ->
  local_address_count h nskip = spec_bucket nskip h.
Proof.
  intros Hp Hs. unfold local_address_count.
  destruct (Z.eqb_spec nskip 0) as [->|Hn].
  - symmetry. apply spec_bucket_0.
  - specialize (Hs Hn). unfold bucket, spec_bucket in *. rewrite !map_fold_foldr.
    apply bucket_foldr_eq; [apply map_to_list_pos, Hp|].
    rewrite <- map_fold_foldr. exact Hs.
Qed.

Lemma total_access_count_eq (h : gmap Z Z) :
  (forall a c, h !! a = Some c -> 0 < c)%Z ->
  (spec_total h < two64)%Z ->
  total_access_count h = spec_total h.
Proof.
  intros Hp Hs. unfold total_access_count. rewrite map_fold_foldr, spec_total_foldr.
  apply total_foldr_eq; [apply map_to_list_pos, Hp|].
  rewrite <- spec_total_foldr. exact Hs.
Qed.

Lemma local_entropy_spec (h : gmap Z Z) nskip :
  (forall a c, h !! a = Some c -> 0 < c)%Z ->
  (spec_total h + 1 < two64)%Z ->
  local_entropy (spec_total h) (spec_bucket nskip h) = Fin (spec_H h nskip).
Proof.
  intros Hp Hs. pose proof (spec_total_nonneg h Hp) as Hn.
  destruct (spec_bucket_props nskip h Hp) as [_ Hb].
  unfold local_entropy, spec_H.
  rewrite (Z.mod_small (spec_total h + 1)) by (unfold two32, two64 in *; lia).
  rewrite !map_fold_foldr. apply local_entropy_foldr; [|lia].
  apply map_to_list_pos. intros b v Hv. apply Hb in Hv. lia.
Qed.

(** C1 (amended).  For a histogram whose counts are positive, whose
    bucket sums at every skip 1..10 stay below [2^32] (no [uint32_t] bucket
    sum wraps around) and whose total plus one stays below [2^64] (the
    [uint64_t] total and its [+1] do not wrap), [entropy] returns 11 zeros
    when the total is 0 and otherwise the 11 values [- sum p * log2 p] over
    the buckets [address >> skip], with [p = count / (total + 1)]; every
    such value lies in [[0, log2(total + 1)]]. *)
Theorem entropy_smoothed_bounds (histogram : gmap Z Z)
  (Hpos : forall a c, histogram !! a = Some c -> (0 < c)%Z)
  (Hnowrap : forall nskip b v, (1 <= nskip <= 10)%Z ->
     spec_bucket nskip histogram !! b = Some v -> (v < two32)%Z)
  (Htotal : (spec_total histogram + 1 < two64)%Z) :
  entropy histogram =
    (if Z.eqb (spec_total histogram) 0 then repeat (Fin 0%R) 11
     else map (fun nskip => Fin (spec_H histogram nskip)) nskips) /\
  (forall nskip,
     0 <= spec_H histogram nskip <= log2 (IZR (spec_total histogram + 1)))%R.
Proof.
  pose proof (spec_total_nonneg histogram Hpos) as Hn. split.
  - unfold entropy.
    rewrite total_access_count_eq by (auto; lia).
    destruct (Z.eqb (spec_total histogram) 0); [reflexivity|].
    apply map_ext_in. intros nskip Hin. unfold to_float.
    unfold nskips in Hin. apply in_map_iff in Hin as (n & <- & Hn').
    apply in_seq in Hn'.
    rewrite local_address_count_eq.
    + apply local_entropy_spec; assumption.
    + exact Hpos.
    + intros H0 b v Hv. apply (Hnowrap (Z.of_nat n) b v); [lia|exact Hv].
  - intros nskip. set (T := spec_total histogram) in *.
    destruct (spec_bucket_props nskip histogram Hpos) as [Hst Hb].
    fold T in Hst, Hb.
    pose proof (entropy_sum_bounds (T + 1) (map_to_list (spec_bucket nskip histogram)))
      as Hbd.
    rewrite <- spec_total_foldr, Hst in Hbd.
    unfold spec_H. rewrite map_fold_foldr. fold T.
    assert (HF : Forall (fun p => 1 <= p.2 <= T + 1)%Z
                   (map_to_list (spec_bucket nskip histogram))).
    { apply Forall_forall. intros [b v] Hin. apply elem_of_map_to_list in Hin.
      apply Hb in Hin. simpl. lia. }
    specialize (Hbd HF).
    assert (HL : (0 <= log2 (IZR (T + 1)))%R)
      by (apply log2_nonneg; apply IZR_le; lia).
    assert (HN : (0 < IZR (T + 1))%R) by (apply IZR_lt; lia).
    assert (Hq : (0 <= log2 (IZR (T + 1)) * / IZR (T + 1))%R)
      by (apply Rmult_le_pos; [lra|left; apply Rinv_0_lt_compat; lra]).
    replace (IZR T / IZR (T + 1) * log2 (IZR (T + 1)))%R
      with (log2 (IZR (T + 1)) - log2 (IZR (T + 1)) * / IZR (T + 1))%R in Hbd.
    + lra.
    + rewrite plus_IZR in *. field. lra.
Qed.

(** C1 (counterexample).  Two addresses [0] and [1] counted [2^31] times
    each: at skip 1 both fall into bucket [0], whose [uint32_t] sum wraps
    around to [0]; [prob = 0] and [0 * log2 0] is NaN, so the skip-1 entry
    is not a finite number, let alone one in [[0, log2(total+1)]]. *)
Lemma entropy_counterexample :
  nth_error (entropy (<[0%Z := (2 ^ 31)%Z]> (<[1%Z := (2 ^ 31)%Z]> ∅))) 1
    = Some NonFinite.
Proof.
  set (h := <[0%Z := (2 ^ 31)%Z]> (<[1%Z := (2 ^ 31)%Z]> (∅ : gmap Z Z))).
  assert (Ht : total_access_count h = 4294967296%Z) by (vm_compute; reflexivity).
  assert (Hb : local_address_count h 1 = {[0%Z := 0%Z]}) by (vm_compute; reflexivity).
  unfold entropy. rewrite Ht. cbn [Z.eqb Pos.eqb].
  change nskips with [0; 1; 2; 3; 4; 5; 6; 7; 8; 9; 10]%Z.
  cbn [map nth_error]. rewrite Hb. unfold to_float, local_entropy.
  rewrite map_fold_singleton. reflexivity.
Qed.

(** C1 (witness).  Addresses [0] and [2^20] counted [2^31] times each
    (never in one bucket, total above [2^32]) and addresses [0x1000] and
    [0x1004] counted 3 and 5 times (in one bucket from skip 3 on). *)
Lemma entropy_smoothed_bounds_witness :
  let h := <[0%Z := (2 ^ 31)%Z]> (<[(2 ^ 20)%Z := (2 ^ 31)%Z]>
             (<[4096%Z := 3%Z]> (<[4100%Z := 5%Z]> (∅ : gmap Z Z)))) in
  (two32 < spec_total h)%Z /\
  spec_bucket 3 h !! 512%Z = Some 8%Z /\
  (forall a c, h !! a = Some c -> (0 < c)%Z) /\
  (forall nskip b v, (1 <= nskip <= 10)%Z -> spec_bucket nskip h !! b = Some v -> (v < two32)%Z) /\
  (spec_total h + 1 < two64)%Z /\
  entropy h =
    (if Z.eqb (spec_total h) 0 then repeat (Fin 0%R) 11
     else map (fun nskip => Fin (spec_H h nskip)) nskips).
Proof.
  intros h.
  assert (Hp : forall a c, h !! a = Some c -> (0 < c)%Z).
  { assert (Hf : map_Forall (fun _ c => 0 < c)%Z h)
      by (apply (bool_decide_unpack _); vm_compute; reflexivity).
    intros a c Hl. exact (Hf a c Hl). }
  assert (Hw : Forall (fun n => map_Forall (fun _ v => v < two32)%Z (spec_bucket n h))
                 (map Z.of_nat (seq 1 10)))
    by (apply (bool_decide_unpack _); vm_compute; reflexivity).
  assert (Hb : forall nskip b v, (1 <= nskip <= 10)%Z ->
                 spec_bucket nskip h !! b = Some v -> (v < two32)%Z).
  { intros nskip b v Hn Hv.
    assert (Hin : In nskip (map Z.of_nat (seq 1 10))).
    { apply in_map_iff. exists (Z.to_nat nskip). split; [lia|]. apply in_seq. lia. }
    apply Forall_forall with (x := nskip) in Hw; [exact (Hw b v Hv)|].
    apply list_elem_of_In, Hin. }
  assert (Ht : (spec_total h + 1 < two64)%Z) by (vm_compute; reflexivity).
  split; [vm_compute; reflexivity|]. split; [vm_compute; reflexivity|].
  split; [exact Hp|]. split; [exact Hb|]. split; [exact Ht|].
  exact (proj1 (entropy_smoothed_bounds h Hp Hb Ht)).
Defined.

End EntropyFacts.

Module BranchFacts.
Import Entropy EntropyFacts Plugin Props.

Lemma incr_pattern_other site pat pats s :
  s <> site -> incr_pattern site pat pats !! s = pats !! s.
Proof. intros Hne. unfold incr_pattern. apply lookup_insert_ne. congruence. Qed.

Lemma incr_pattern_total site pat pats :
  spec_total (default ∅ (incr_pattern site pat pats !! site))
    = (1 + spec_total (default ∅ (pats !! site)))%Z.
Proof.
  unfold incr_pattern. rewrite lookup_insert_eq. simpl.
  apply spec_total_insert_add.
Qed.

Lemma record_patterns_other site bs i cur pats s :
  s <> site -> record_patterns site bs i cur pats !! s = pats !! s.
Proof.
  intros Hne. revert i cur pats.
  induction bs as [|b bs IH]; intros i cur pats; cbn [record_patterns]; [reflexivity|].
  rewrite IH. destruct (Nat.leb (history_m - 1) i); [|reflexivity].
  apply incr_pattern_other, Hne.
Qed.

Lemma record_patterns_total site bs i cur pats :
  spec_total (default ∅ (record_patterns site bs i cur pats !! site))
    = (spec_total (default ∅ (pats !! site))
       + Z.of_nat ((i + length bs) - Nat.max 15 i))%Z.
Proof.
  revert i cur pats.
  induction bs as [|b bs IH]; intros i cur pats; cbn [record_patterns length].
  - replace (i + 0 - Nat.max 15 i)%nat with 0%nat by lia. lia.
  - rewrite IH. unfold history_m.
    destruct (Nat.leb_spec (16 - 1) i) as [Hi|Hi].
    + rewrite incr_pattern_total. lia.
    + lia.
Qed.

Lemma merge_branch_inv site bs cp :
  branch_inv cp -> branch_inv (merge_branch site bs cp).
Proof.
  intros Hinv s. specialize (Hinv s). unfold merge_branch, add_at.
  destruct (decide (s = site)) as [->|Hne].
  - destruct (Nat.ltb_spec (length bs) history_m) as [Hlt|Hge]; simpl;
      rewrite lookup_insert_eq; simpl.
    + destruct (length bs) eqn:Hl; [lia|]. right. lia.
    + rewrite record_patterns_total. unfold history_m in Hge.
      replace (0 + length bs - Nat.max 15 0)%nat with (length bs - 15)%nat by lia.
      right. lia.
  - destruct (Nat.ltb (length bs) history_m); simpl;
      rewrite lookup_insert_ne by congruence;
      [exact Hinv|rewrite record_patterns_other by exact Hne; exact Hinv].
Qed.

Lemma merge_branches_inv (b : gmap Z (list bool)) cp :
  branch_inv cp -> branch_inv (merge_branches b cp).
Proof.
  intros Hinv. unfold merge_branches. rewrite map_fold_foldr.
  induction (map_to_list b) as [|[site bs] l IH]; simpl; [exact Hinv|].
  apply merge_branch_inv, IH.
Qed.

Lemma workGroupComplete_branch p ws :
  (m_branchCounts (agg (fst (workGroupComplete p ws))),
   m_branchPatterns (agg (fst (workGroupComplete p ws))))
  = merge_branches (branchOps (ws_maps ws)) (m_branchCounts (agg p), m_branchPatterns (agg p)).
Proof.
  unfold workGroupComplete. cbn [fst agg m_branchCounts m_branchPatterns].
  destruct (merge_branches _ _); reflexivity.
Qed.

Lemma merged_branch_inv ki p workers :
  branch_inv (m_branchCounts (agg (merged ki p workers)),
              m_branchPatterns (agg (merged ki p workers))).
Proof.
  unfold merged.
  assert (H0 : branch_inv (m_branchCounts (agg (kernelBegin ki p)),
                           m_branchPatterns (agg (kernelBegin ki p)))).
  { intros s. left. simpl. rewrite !lookup_empty. simpl.
    unfold spec_total. rewrite map_fold_empty. lia. }
  revert H0. generalize (kernelBegin ki p). induction workers as [|ws l IH]; intros q Hq;
    cbn [fold_left]; [exact Hq|].
  apply IH. rewrite workGroupComplete_branch. apply merge_branches_inv, Hq.
Qed.

(** C2 (amended).  In a merged invocation aggregate, for every site [s],
    [branch_counts[s]] is at least the number of pattern occurrences
    recorded in [branch_patterns[s]], and the two are equal exactly when
    [branch_counts[s] = 0]. *)
Theorem branch_counts_dominate_patterns ki p workers s :
  let a := agg (Props.merged ki p workers) in
  (spec_total (default ∅ (m_branchPatterns a !! s)) <= default 0 (m_branchCounts a !! s))%Z /\
  (spec_total (default ∅ (m_branchPatterns a !! s)) = default 0 (m_branchCounts a !! s)
     <-> default 0 (m_branchCounts a !! s) = 0)%Z.
Proof.
  intros a. destruct (merged_branch_inv ki p workers s) as [[H1 H2]|[H1 H2]];
    simpl in *; fold a in H1, H2; lia.
Qed.

(** C2 (counterexample).  One work-group whose single branch site [7]
    recorded 16 taken outcomes: [branch_counts[7] = 16 >= m], yet only one
    history pattern was recorded, so the two differ. *)
Lemma branch_equality_counterexample :
  let ws := with_maps initial_worker
              (mkWorkerMaps ∅ ∅ ∅ {[7%Z := repeat true 16]} [] ∅ [] [] ∅ ∅) in
  let ki := mkKernelInvocation "k" false (mkSize3 1 1 1) (mkSize3 1 1 1) in
  let a := agg (Props.merged ki initial_plugin [ws]) in
  (default 0 (m_branchCounts a !! 7) = 16 /\
   spec_total (default ∅ (m_branchPatterns a !! 7)) = 1)%Z.
Proof.
  intros ws ki a. unfold a, Props.merged. cbn [fold_left].
  pose proof (workGroupComplete_branch (kernelBegin ki initial_plugin) ws) as Hb.
  pose proof (f_equal fst Hb) as Hc. pose proof (f_equal snd Hb) as Hp.
  cbn [fst snd] in Hc, Hp. rewrite Hc, Hp.
  split; vm_compute; reflexivity.
Qed.

End BranchFacts.

Module MetricsFacts.
Import Entropy Plugin Metrics Props.

Lemma combined_count_fields a b n :
  m_storeOps a = m_storeOps b -> m_loadOps a = m_loadOps b ->
  combined_count a n = combined_count b n.
Proof. intros Hs Hl. unfold combined_count. rewrite Hs, Hl. reflexivity. Qed.

Lemma memory_access_count_fields a b :
  m_storeOps a = m_storeOps b -> m_loadOps a = m_loadOps b ->
  memory_access_count a = memory_access_count b.
Proof.
  intros Hs Hl. unfold memory_access_count. rewrite (combined_count_fields a b 0 Hs Hl).
  reflexivity.
Qed.

Lemma merged1_ops ki p ws :
  m_storeOps (agg (merged ki p [ws])) = merge_add ∅ (storeOps (ws_maps ws)) /\
  m_loadOps (agg (merged ki p [ws])) = merge_add ∅ (loadOps (ws_maps ws)).
Proof. split; reflexivity. Qed.

Lemma dsub_swap x a b : dsub (dsub x a) b = dsub (dsub x b) a.
Proof.
  destruct x, a, b; cbn [dsub]; try reflexivity. f_equal. lra.
Qed.

Lemma sequential_ops :
  let a := agg sequential_load_invocation in
  let b := ops_aggregate ∅ (merge_add ∅ (loadOps (ws_maps
             (run_group unit_local initial_worker sequential_loads)))) in
  m_storeOps a = m_storeOps b /\ m_loadOps a = m_loadOps b.
Proof. split; reflexivity. Qed.

Lemma sequential_skip10_buckets :
  combined_count (agg sequential_load_invocation) 10 =
    <[4%Z := 256%Z]> (<[5%Z := 256%Z]> (<[6%Z := 256%Z]> {[7%Z := 256%Z]})).
Proof.
  destruct sequential_ops as [Hs Hl].
  rewrite (combined_count_fields _ _ 10 Hs Hl). vm_compute. reflexivity.
Qed.

Lemma sequential_access_count :
  memory_access_count (agg sequential_load_invocation) = 1024%Z.
Proof.
  destruct sequential_ops as [Hs Hl].
  rewrite (memory_access_count_fields _ _ Hs Hl). vm_compute. reflexivity.
Qed.

Lemma quarter_plogp : plogp 256 1024 = Fin (- / 2)%R.
Proof.
  unfold plogp. change ((256 =? 0)%Z || (1024 =? 0)%Z) with false. cbv beta iota zeta.
  f_equal. replace (IZR 256 / IZR 1024)%R with (/ 4)%R by field.
  unfold log2. rewrite ln_Rinv by lra.
  replace 4%R with (2 * 2)%R by lra. rewrite ln_mult by lra.
  pose proof EntropyFacts.ln2_pos. field. lra.
Qed.

Lemma sequential_skip10_lmae :
  nth_error (loc_entropy (agg sequential_load_invocation)) 9 = Some (Fin 2%R).
Proof.
  unfold loc_entropy. rewrite nth_error_map.
  change (nth_error (map Z.of_nat (seq 1 10)) 9) with (Some 10%Z).
  cbn [option_map]. rewrite sequential_skip10_buckets, sequential_access_count.
  unfold to_float.
  rewrite map_fold_insert_L; [| intros; apply dsub_swap | vm_compute; reflexivity].
  rewrite map_fold_insert_L; [| intros; apply dsub_swap | vm_compute; reflexivity].
  rewrite map_fold_insert_L; [| intros; apply dsub_swap | vm_compute; reflexivity].
  rewrite map_fold_singleton. rewrite quarter_plogp. cbn [dsub]. f_equal. f_equal. lra.
Qed.

(** C3 (amended).  For one work-item loading the 1024 consecutive 4-byte
    words from [0x1000] on, the skip-10 LMAE entry is [2]: the addresses
    [0x1000 .. 0x1FFC] shifted right by 10 fall into the four buckets
    [4 .. 7], 256 accesses each, and [- 4 * (1/4) * log2 (1/4) = 2]. *)
Theorem sequential_lmae_skip10 :
  nth_error (loc_entropy (agg sequential_load_invocation)) 9 = Some (Fin 2%R) /\
  combined_count (agg sequential_load_invocation) 10 =
    <[4%Z := 256%Z]> (<[5%Z := 256%Z]> (<[6%Z := 256%Z]> {[7%Z := 256%Z]})).
Proof. split; [exact sequential_skip10_lmae | exact sequential_skip10_buckets]. Qed.

(** C3 (counterexample).  The skip-10 entry of that input is not [0]. *)
Lemma sequential_lmae_counterexample :
  nth_error (loc_entropy (agg sequential_load_invocation)) 9 <> Some (Fin 0%R).
Proof.
  rewrite sequential_skip10_lmae. intros H. injection H as H. lra.
Qed.

Lemma dom_merge_add (d src : gmap Z Z) : dom (merge_add d src) = dom d ∪ dom src.
Proof.
  unfold merge_add.
  apply (map_fold_weak_ind (fun r m => dom r = dom d ∪ dom m)).
  - rewrite dom_empty_L. set_solver.
  - intros i x m r _ IH. unfold add_at. rewrite !dom_insert_L, IH. set_solver.
Qed.

Lemma dom_incr32 (m : gmap Z Z) k : dom (incr32 m k) = {[k]} ∪ dom m.
Proof. unfold incr32. apply dom_insert_L. Qed.

Lemma events_storeOps L evs ws :
  dom (storeOps (ws_maps (fold_left (wg_step L) evs ws)))
    = dom (storeOps (ws_maps ws)) ∪ list_to_set (store_addrs evs).
Proof.
  revert ws. induction evs as [|e evs IH]; intros ws; cbn [fold_left store_addrs].
  - set_solver.
  - rewrite IH. destruct e as [sp a lid|sp a lid| | | | |]; cbn [wg_step]; try set_solver.
    + unfold memoryLoad. destruct (Z.eqb sp AddrSpacePrivate); set_solver.
    + unfold memoryStore. destruct (Z.eqb sp AddrSpacePrivate); cbn [list_to_set].
      * set_solver.
      * change (storeOps (ws_maps (threadMemoryLedger L a 0 lid (with_maps ws
                  (set_storeOps (ws_maps ws) (incr32 (storeOps (ws_maps ws)) a))))))
          with (incr32 (storeOps (ws_maps ws)) a).
        rewrite dom_incr32. set_solver.
Qed.

Lemma events_loadOps L evs ws :
  dom (loadOps (ws_maps (fold_left (wg_step L) evs ws)))
    = dom (loadOps (ws_maps ws)) ∪ list_to_set (load_addrs evs).
Proof.
  revert ws. induction evs as [|e evs IH]; intros ws; cbn [fold_left load_addrs].
  - set_solver.
  - rewrite IH. destruct e as [sp a lid|sp a lid| | | | |]; cbn [wg_step]; try set_solver.
    + unfold memoryLoad. destruct (Z.eqb sp AddrSpacePrivate); cbn [list_to_set].
      * set_solver.
      * change (loadOps (ws_maps (threadMemoryLedger L a 0 lid (with_maps ws
                  (set_loadOps (ws_maps ws) (incr32 (loadOps (ws_maps ws)) a))))))
          with (incr32 (loadOps (ws_maps ws)) a).
        rewrite dom_incr32. set_solver.
    + unfold memoryStore. destruct (Z.eqb sp AddrSpacePrivate); set_solver.
Qed.

Lemma merged_fold_ops (workers : list WorkerState) p0 :
  dom (m_storeOps (agg (fold_left (fun p ws => fst (workGroupComplete p ws)) workers p0)))
    = dom (m_storeOps (agg p0)) ∪ ⋃ map (fun ws => dom (storeOps (ws_maps ws))) workers /\
  dom (m_loadOps (agg (fold_left (fun p ws => fst (workGroupComplete p ws)) workers p0)))
    = dom (m_loadOps (agg p0)) ∪ ⋃ map (fun ws => dom (loadOps (ws_maps ws))) workers.
Proof.
  revert p0. induction workers as [|w ws IH]; intros p0; cbn [fold_left map union_list].
  - split; set_solver.
  - destruct (IH (fst (workGroupComplete p0 w))) as [H1 H2]. rewrite H1, H2.
    change (m_storeOps (agg (fst (workGroupComplete p0 w))))
      with (merge_add (m_storeOps (agg p0)) (storeOps (ws_maps w))).
    change (m_loadOps (agg (fst (workGroupComplete p0 w))))
      with (merge_add (m_loadOps (agg p0)) (loadOps (ws_maps w))).
    rewrite !dom_merge_add. split; set_solver.
Qed.

Lemma store_addrs_app l1 l2 : store_addrs (l1 ++ l2) = store_addrs l1 ++ store_addrs l2.
Proof.
  induction l1 as [|e l1 IH]; [reflexivity|].
  destruct e as [sp a lid|sp a lid| | | | |]; cbn [app store_addrs]; rewrite ?IH; try reflexivity.
  destruct (Z.eqb sp AddrSpacePrivate); reflexivity.
Qed.

Lemma load_addrs_app l1 l2 : load_addrs (l1 ++ l2) = load_addrs l1 ++ load_addrs l2.
Proof.
  induction l1 as [|e l1 IH]; [reflexivity|].
  destruct e as [sp a lid|sp a lid| | | | |]; cbn [app load_addrs]; rewrite ?IH; try reflexivity.
  destruct (Z.eqb sp AddrSpacePrivate); reflexivity.
Qed.

Lemma run_group_dom L ws evs :
  dom (storeOps (ws_maps (run_group L ws evs))) = list_to_set (store_addrs evs) /\
  dom (loadOps (ws_maps (run_group L ws evs))) = list_to_set (load_addrs evs).
Proof.
  unfold run_group. rewrite events_storeOps, events_loadOps.
  change (storeOps (ws_maps (workGroupBegin L ws))) with (∅ : gmap Z Z).
  change (loadOps (ws_maps (workGroupBegin L ws))) with (∅ : gmap Z Z).
  rewrite dom_empty_L. split; set_solver.
Qed.

Lemma invocation_ops_dom ki p groups :
  dom (m_storeOps (agg (invocation ki p groups)))
    = list_to_set (store_addrs (concat (map snd groups))) /\
  dom (m_loadOps (agg (invocation ki p groups)))
    = list_to_set (load_addrs (concat (map snd groups))).
Proof.
  unfold invocation, merged.
  destruct (merged_fold_ops (map (fun g => run_group (ki_local_size ki) g.1 g.2) groups)
              (kernelBegin ki p)) as [H1 H2].
  rewrite H1, H2. clear H1 H2.
  change (m_storeOps (agg (kernelBegin ki p))) with (∅ : gmap Z Z).
  change (m_loadOps (agg (kernelBegin ki p))) with (∅ : gmap Z Z).
  rewrite dom_empty_L.
  induction groups as [|[ws evs] gs [IH1 IH2]]; cbn [map concat].
  - rewrite union_list_nil. split; set_solver.
  - rewrite !union_list_cons, store_addrs_app, load_addrs_app, !list_to_set_app_L.
    destruct (run_group_dom (ki_local_size ki) ws evs) as [E1 E2].
    cbn [fst snd]. rewrite E1, E2. split; set_solver.
Qed.

(** C4.  For every invocation (work-groups run from any worker states on
    any events, then merged), the report row [unique_reads] is the number
    of distinct addresses stored to, [unique_writes] the number of distinct
    addresses loaded from, and [unique_read_write_ratio] the quotient
    (distinct load addresses) / (distinct store addresses): the swapped
    labels of the source. *)
Theorem unique_rows_swapped ki p groups :
  let a := agg (invocation ki p groups) in
  let evs := concat (map snd groups) in
  let n_store := Z.of_nat (size (list_to_set (store_addrs evs) : gset Z)) in
  let n_load := Z.of_nat (size (list_to_set (load_addrs evs) : gset Z)) in
  memory_rows a !! 2%nat = Some ("unique_reads", CInt n_store)%string /\
  memory_rows a !! 3%nat = Some ("unique_writes", CInt n_load)%string /\
  memory_rows a !! 4%nat = Some ("unique_read_write_ratio", CQuot n_load n_store)%string.
Proof.
  intros a evs n_store n_load.
  destruct (invocation_ops_dom ki p groups) as [Hs Hl].
  assert (Es : Z.of_nat (size (m_storeOps a)) = n_store).
  { unfold n_store, a, evs. rewrite <- Hs, size_dom. reflexivity. }
  assert (El : Z.of_nat (size (m_loadOps a)) = n_load).
  { unfold n_load, a, evs. rewrite <- Hl, size_dom. reflexivity. }
  unfold memory_rows. cbn [lookup list_lookup]. rewrite Es, El. auto.
Qed.

Lemma parallelism_reductions_empty_itb a :
  m_instructionsToBarrier a = [] -> parallelism_reductions a = Undefined.
Proof. intros H. unfold parallelism_reductions. rewrite H. reflexivity. Qed.

Lemma merge_add_empty (d : gmap Z Z) : merge_add d ∅ = d.
Proof. unfold merge_add. apply map_fold_empty. Qed.

Lemma no_items_fold (wss : list WorkerState) L p0 :
  m_instructionsToBarrier (agg p0) = [] -> m_instructionsPerWorkitem (agg p0) = [] ->
  m_instructionWidth (agg p0) = ∅ ->
  let a := agg (fold_left (fun p ws => fst (workGroupComplete p ws))
                  (map (fun ws => run_group L ws []) wss) p0) in
  m_instructionsToBarrier a = [] /\ m_instructionsPerWorkitem a = [] /\
  m_instructionWidth a = ∅.
Proof.
  revert p0. induction wss as [|w wss IH]; intros p0 H1 H2 H3; cbn [map fold_left].
  - auto.
  - apply IH.
    + change (m_instructionsToBarrier (agg p0) ++ [] = []). rewrite H1. reflexivity.
    + change (m_instructionsPerWorkitem (agg p0) ++ [] = []). rewrite H2. reflexivity.
    + change (merge_add (m_instructionWidth (agg p0)) ∅ = ∅).
      rewrite merge_add_empty. exact H3.
Qed.

(** C8 (amended).  When metrics are emitted for an invocation in which no
    work-item ran (every work-group saw no work-item event), the sequences
    [instructions_between_barriers], [instructions_per_workitem] and the
    [instruction_width] map are empty and the reductions still run
    unguarded: [*std::min_element] dereferences the end iterator, which is
    undefined behaviour; no error value is produced. *)
Theorem no_workitem_reductions_unguarded ki p wss :
  let a := agg (merged ki p (map (fun ws => run_group (ki_local_size ki) ws []) wss)) in
  m_instructionsToBarrier a = [] /\ m_instructionsPerWorkitem a = [] /\
  m_instructionWidth a = ∅ /\ parallelism_reductions a = Undefined.
Proof.
  intros a.
  destruct (no_items_fold wss (ki_local_size ki) (kernelBegin ki p)
              eq_refl eq_refl eq_refl) as [H1 [H2 H3]].
  fold a in H1, H2, H3.
  split; [exact H1|]. split; [exact H2|]. split; [exact H3|].
  apply parallelism_reductions_empty_itb. exact H1.
Qed.

(** C8 (counterexample).  One work-group of one work-item slot in which
    no work-item ran: the reductions hit undefined behaviour instead of
    producing an error value. *)
Lemma empty_reductions_counterexample :
  parallelism_reductions
    (agg (merged (mkKernelInvocation "k" false unit_local unit_local) initial_plugin
            [run_group unit_local initial_worker []])) = Undefined.
Proof. apply parallelism_reductions_empty_itb. reflexivity. Qed.

End MetricsFacts.

Module WorkerFacts.
Import Plugin Props.

Lemma workGroupBegin_ledger_allocated L ws :
  ws_allocated ws = true -> length (ws_ledger (workGroupBegin L ws)) = length (ws_ledger ws).
Proof.
  intros H. unfold workGroupBegin. rewrite H. cbn [ws_ledger]. apply length_map.
Qed.

(** C5 (code bug).  A thread that ran a work-group of local size
    [(1,1,1)] keeps a one-row ledger when it runs a work-group of the next
    invocation with local size [(2,1,1)]: [workGroupBegin] sizes the ledger
    only when [m_state.storeOps] is still [NULL].  A store by the work-item
    [(1,0,0)] then indexes row 1 of a one-row vector (undefined behaviour;
    here the access is lost). *)
Theorem ledger_sized_once :
  let ws1 := run_group unit_local initial_worker [] in
  let ws2 := workGroupBegin (mkSize3 2 1 1) ws1 in
  length (ws_ledger ws1) = 1%nat /\ length (ws_ledger ws2) = 1%nat /\
  ws_ledger (wg_step (mkSize3 2 1 1) ws2 (EvStore 1 64 (mkSize3 1 0 0))) = [[]].
Proof. vm_compute. auto. Qed.

End WorkerFacts.

Module TransferFacts.
Import Plugin Transfer Props.

Lemma pick_transfer_none_exists fuel n :
  pick_transfer_logfile (fun _ => false) fuel n = None.
Proof.
  revert n. induction fuel as [|f IH]; intros n; [reflexivity|]. cbn. apply IH.
Qed.

(** C6 (code bug).  The destructor's loop exits when the file EXISTS
    ([if (std::ifstream(logfile_name)) break;]), the opposite of the
    [logMetrics] loop: with only [aiwc_memory_transfers_0.csv] present it
    opens and overwrites that file, whereas the smallest free index is 1; and
    when no such file exists the loop never exits, where the [logMetrics]
    loop takes index 0 at once. *)
Theorem transfer_logfile_taken p :
  let only0 := fun s => String.eqb s "aiwc_memory_transfers_0.csv" in
  teardown only0 (fun _ => true) 1 p
    = Written "aiwc_memory_transfers_0.csv" (transfer_rows p) /\
  pick_report_logfile (fun _ => false) EmptyString "k" 1 0 = Some "aiwc_k_0.csv" /\
  (forall fuel, teardown (fun _ => false) (fun _ => true) fuel p = StillSearching).
Proof.
  split; [reflexivity|]. split; [reflexivity|].
  intros fuel. unfold teardown. rewrite pick_transfer_none_exists. reflexivity.
Qed.

Lemma unique_elem (l : list string) x : x ∈ unique l <-> x ∈ l.
Proof.
  induction l as [|y r IH]; [reflexivity|].
  destruct r as [|z r'].
  - reflexivity.
  - change (unique (y :: z :: r'))
      with (if String.eqb y z then unique (z :: r') else y :: unique (z :: r')).
    destruct (String.eqb_spec y z) as [->|_].
    + rewrite IH. set_solver.
    + rewrite elem_of_cons, IH. set_solver.
Qed.

Lemma in_dir_rows (dir : string) (log : list string) d k c :
  (d, k, c) ∈ map (fun k => (dir, k, count log k)) (unique log) <->
  d = dir /\ k ∈ log /\ c = count log k.
Proof.
  rewrite list_elem_of_In, in_map_iff. split.
  - intros [k' [E Hk]]. injection E as <- <- <-. rewrite <- list_elem_of_In in Hk.
    apply (proj1 (unique_elem log k')) in Hk. auto.
  - intros (-> & Hk & ->). exists k. split; [reflexivity|].
    apply list_elem_of_In, (proj2 (unique_elem log k)), Hk.
Qed.

Lemma unique_cons_head y r : exists t, unique (y :: r) = y :: t.
Proof.
  revert y. induction r as [|z r IH]; intros y; [exists []; reflexivity|].
  change (unique (y :: z :: r))
    with (if String.eqb y z then unique (z :: r) else y :: unique (z :: r)).
  destruct (String.eqb_spec y z) as [->|_]; [apply IH|eexists; reflexivity].
Qed.

Lemma unique_runs l : maximal_runs l (unique l).
Proof.
  induction l as [|x r IH].
  - exists []. split; [reflexivity|]. split; [constructor|]. split; [reflexivity|].
    intros i x y Hx. discriminate Hx.
  - destruct r as [|y r'].
    + exists [1%nat]. split; [reflexivity|]. split; [repeat constructor|].
      split; [reflexivity|]. intros i a b _ Hb. rewrite lookup_ge_None_2 in Hb; [discriminate|].
      cbn. lia.
    + change (unique (x :: y :: r'))
        with (if String.eqb x y then unique (y :: r') else x :: unique (y :: r')).
      destruct IH as (ns & Hlen & Hpos & Hcat & Hadj).
      destruct (unique_cons_head y r') as [t Ht]. rewrite Ht in *.
      destruct (String.eqb_spec x y) as [->|Hne].
      * destruct ns as [|n ns]; [discriminate Hlen|].
        exists (S n :: ns). split; [exact Hlen|].
        split; [apply Forall_cons in Hpos as [_ Hpos]; constructor; [lia|exact Hpos]|].
        split; [|exact Hadj].
        cbn [zip_with concat] in Hcat |- *. cbn [replicate app]. rewrite <- Hcat. reflexivity.
      * exists (1%nat :: ns). split; [cbn; rewrite Hlen; reflexivity|].
        split; [constructor; [lia|exact Hpos]|].
        split; [cbn [zip_with concat replicate app]; rewrite <- Hcat; reflexivity|].
        intros [|i] a b Ha Hb.
        -- cbn in Ha, Hb. injection Ha as <-. injection Hb as <-. exact Hne.
        -- exact (Hadj i a b Ha Hb).
Qed.

(** C7 (amended).  The rows of the sidecar report are, per direction and
    in order, one per maximal run of adjacent equal names of that
    direction's log, and each row's count is the total number of
    occurrences of its kernel in that direction's whole log: every row
    names a kernel of the log, and every kernel of the log has a row. *)
Theorem transfer_rows_total_counts p :
  (exists ks ks',
     maximal_runs (m_hostToDeviceCopy p) ks /\ maximal_runs (m_deviceToHostCopy p) ks' /\
     transfer_rows p =
       map (fun k => ("transfer: host to device", k, count (m_hostToDeviceCopy p) k)%string) ks ++
       map (fun k => ("transfer: device to host", k, count (m_deviceToHostCopy p) k)%string) ks')
  /\
  (forall d k c, (d, k, c) ∈ transfer_rows p ->
     (d = "transfer: host to device" /\ k ∈ m_hostToDeviceCopy p /\
      c = count (m_hostToDeviceCopy p) k) \/
     (d = "transfer: device to host" /\ k ∈ m_deviceToHostCopy p /\
      c = count (m_deviceToHostCopy p) k))%string /\
  (forall k, k ∈ m_hostToDeviceCopy p ->
     ("transfer: host to device", k, count (m_hostToDeviceCopy p) k)%string
       ∈ transfer_rows p) /\
  (forall k, k ∈ m_deviceToHostCopy p ->
     ("transfer: device to host", k, count (m_deviceToHostCopy p) k)%string
       ∈ transfer_rows p).
Proof.
  split.
  { exists (unique (m_hostToDeviceCopy p)), (unique (m_deviceToHostCopy p)).
    split; [apply unique_runs|]. split; [apply unique_runs|]. reflexivity. }
  unfold transfer_rows. split; [|split].
  - intros d k c H. apply elem_of_app in H as [H|H]; apply in_dir_rows in H; auto.
  - intros k Hk. apply elem_of_app. left. apply in_dir_rows. auto.
  - intros k Hk. apply elem_of_app. right. apply in_dir_rows. auto.
Qed.

(** C7 (counterexample).  Host-to-device log [A; B; A]: the two runs of
    [A] each get a row, but its count is 2, the total, not the run length 1. *)
Lemma transfer_runs_counterexample :
  transfer_rows (mkPluginState empty_aggregate None origin origin
                   ["A"; "B"; "A"]%string [] 0 "A")
  = [("transfer: host to device", "A", 2%Z); ("transfer: host to device", "B", 1%Z);
     ("transfer: host to device", "A", 2%Z)]%string.
Proof. reflexivity. Qed.

Lemma rename_last_spec (h2d : list string) i k name :
  (i + k <= length h2d)%nat ->
  length (rename_last h2d (Z.of_nat (length h2d) - 1) (Z.of_nat i) k name) = length h2d /\
  forall j, rename_last h2d (Z.of_nat (length h2d) - 1) (Z.of_nat i) k name !! j =
    if decide (length h2d - i - k <= j < length h2d - i)%nat then Some name else h2d !! j.
Proof.
  revert h2d i. induction k as [|k IH]; intros h2d i Hk.
  - cbn [rename_last]. split; [reflexivity|]. intros j.
    destruct (decide _); [lia|reflexivity].
  - cbn [rename_last].
    replace (Z.of_nat (length h2d) - 1 - Z.of_nat i)%Z
      with (Z.of_nat (length h2d - 1 - i)) by lia.
    rewrite (proj2 (Z.leb_le 0 _)) by lia. rewrite Nat2Z.id.
    set (h' := <[length h2d - 1 - i := name]> h2d).
    assert (Hl : length h' = length h2d) by apply length_insert.
    replace (Z.of_nat i + 1)%Z with (Z.of_nat (S i)) by lia.
    rewrite <- Hl. rewrite <- Hl in Hk.
    destruct (IH h' (S i) ltac:(lia)) as [IH1 IH2].
    split; [exact IH1|]. intros j. rewrite IH2, Hl.
    destruct (decide (length h2d - S i - k <= j < length h2d - S i)%nat);
      destruct (decide (length h2d - i - S k <= j < length h2d - i)%nat);
      try reflexivity; try lia;
      unfold h'; destruct (decide (j = length h2d - 1 - i)) as [->|Hne];
      [rewrite list_lookup_insert_eq by lia | rewrite list_lookup_insert_ne by lia
      | rewrite list_lookup_insert_eq by lia | rewrite list_lookup_insert_ne by lia];
      first [reflexivity | lia].
Qed.

Lemma since_last_kernel_snoc evs e :
  since_last_kernel (evs ++ [e]) =
    if is_kernel_begin e then [] else since_last_kernel evs ++ [e].
Proof.
  unfold since_last_kernel. rewrite rev_app_distr. cbn [rev app take_while].
  destruct (is_kernel_begin e); reflexivity.
Qed.

Lemma host_counter_inv evs :
  let p := run_host evs in
  m_numberOfHostToDeviceCopiesBeforeKernelNamed p = Z.of_nat (unnamed_copies evs) /\
  (unnamed_copies evs <= length (m_hostToDeviceCopy p))%nat.
Proof.
  induction evs as [|e evs IH] using rev_ind; [split; reflexivity|].
  unfold run_host in *. rewrite fold_left_app. cbn [fold_left].
  unfold unnamed_copies in *. rewrite since_last_kernel_snoc.
  destruct IH as [IH1 IH2].
  set (q := fold_left host_step evs initial_plugin) in *.
  destruct e as [| |ki| |ws]; cbn [is_kernel_begin host_step].
  - unfold hostMemoryStore. cbn [m_numberOfHostToDeviceCopiesBeforeKernelNamed
      m_hostToDeviceCopy]. rewrite List.filter_app, length_app, length_app. cbn. lia.
  - unfold hostMemoryLoad. cbn [m_numberOfHostToDeviceCopiesBeforeKernelNamed
      m_hostToDeviceCopy]. rewrite List.filter_app, length_app. cbn. lia.
  - cbn. split; [reflexivity|lia].
  - unfold kernelEnd. cbn [m_numberOfHostToDeviceCopiesBeforeKernelNamed
      m_hostToDeviceCopy]. rewrite List.filter_app, length_app. cbn. lia.
  - change (m_numberOfHostToDeviceCopiesBeforeKernelNamed (fst (workGroupComplete q ws)))
      with (m_numberOfHostToDeviceCopiesBeforeKernelNamed q).
    change (m_hostToDeviceCopy (fst (workGroupComplete q ws)))
      with (m_hostToDeviceCopy q).
    rewrite List.filter_app, length_app. cbn. lia.
Qed.

(** C10.  After every trace of host copies, kernel begins and ends and
    work-group merges, the counter of unattributed host-to-device copies is
    the number of host-to-device copies made since the last kernel was
    named, and at most the length of the host-to-device log; the next
    [kernelBegin] keeps the log's length, leaves its first [length - counter]
    entries unchanged, and names exactly the last [counter] entries. *)
Theorem unnamed_copies_counter evs :
  let p := run_host evs in
  let c := m_numberOfHostToDeviceCopiesBeforeKernelNamed p in
  let h := m_hostToDeviceCopy p in
  c = Z.of_nat (unnamed_copies evs) /\ (0 <= c <= Z.of_nat (length h))%Z /\
  forall ki,
    length (m_hostToDeviceCopy (kernelBegin ki p)) = length h /\
    forall j,
      ((j < length h - Z.to_nat c)%nat -> m_hostToDeviceCopy (kernelBegin ki p) !! j = h !! j) /\
      ((length h - Z.to_nat c <= j < length h)%nat ->
         m_hostToDeviceCopy (kernelBegin ki p) !! j = Some (ki_name ki)).
Proof.
  intros p c h. destruct (host_counter_inv evs) as [H1 H2]. fold p in H1, H2.
  assert (Hc : c = Z.of_nat (unnamed_copies evs)) by exact H1.
  split; [exact Hc|]. split; [fold h in H2; lia|].
  intros ki. unfold kernelBegin. cbn [m_hostToDeviceCopy]. fold h. fold c.
  rewrite Hc, Nat2Z.id.
  destruct (rename_last_spec h 0 (unnamed_copies evs) (ki_name ki) ltac:(fold h in H2; lia))
    as [L1 L2].
  split; [exact L1|]. intros j. rewrite L2.
  split; intros Hj; destruct (decide _); try reflexivity; lia.
Qed.

End TransferFacts.


(* ------------------------------------------------------------------ *)
(** ** The instruction callback *)

Module InstrFacts.
Import Entropy EntropyFacts Plugin Instr.

Lemma history_total_insert (bo : gmap Z (list bool)) k l :
  bo !! k = None -> history_total (<[k := l]> bo) = (length l + history_total bo)%nat.
Proof.
  intros Hk. unfold history_total.
  rewrite map_fold_insert_L; [reflexivity| |exact Hk]. intros; lia.
Qed.

Lemma history_total_push (bo : gmap Z (list bool)) k b :
  history_total (push_outcome bo k b) = S (history_total bo).
Proof.
  unfold push_outcome. destruct (bo !! k) as [l|] eqn:Hk; cbn [default Datatypes.id].
  - rewrite <- insert_delete_eq, history_total_insert by apply lookup_delete_eq.
    assert (Hd : history_total bo = (length l + history_total (delete k bo))%nat).
    { unfold history_total.
      rewrite (map_fold_delete_L _ _ k l bo); [reflexivity| |exact Hk]. intros; lia. }
    rewrite Hd, length_app. cbn [length Datatypes.id]. lia.
  - rewrite history_total_insert by exact Hk. reflexivity.
Qed.

Lemma spec_total_incr64 (m : gmap Z Z) k :
  (spec_total (incr64 m k) mod two64 = (spec_total m + 1) mod two64)%Z.
Proof.
  unfold incr64. destruct (m !! k) as [v|] eqn:Hk; cbn [default Datatypes.id].
  - rewrite <- insert_delete_eq, spec_total_insert by apply lookup_delete_eq.
    rewrite (spec_total_delete m k v Hk).
    rewrite Z.add_mod_idemp_l by (unfold two64; lia).
    f_equal. lia.
  - rewrite spec_total_insert by exact Hk.
    rewrite Z.add_mod_idemp_l by (unfold two64; lia). f_equal. lia.
Qed.

(** Everything one successful call does to the counters, the per-thread
    maps that are not keyed by the instruction, and the branch state. *)
Lemma instr_step ws ins r ws' :
  instructionExecuted ws ins r = Some ws' ->
  instruction_count (ws_ctr ws') = (instruction_count (ws_ctr ws) + 1)%Z /\
  workitem_instruction_count (ws_ctr ws') = (workitem_instruction_count (ws_ctr ws) + 1)%Z /\
  computeOps (ws_maps ws') = incr64 (computeOps (ws_maps ws)) (i_opcode ins) /\
  instructionWidth (ws_maps ws') = incr64 (instructionWidth (ws_maps ws)) (r mod 65536)%Z /\
  instructionsBetweenLoadOrStore (ws_maps ws') =
    (if is_mem ins
     then push32 (instructionsBetweenLoadOrStore (ws_maps ws))
            (ops_between_load_or_store (ws_ctr ws) + 1)
     else instructionsBetweenLoadOrStore (ws_maps ws)) /\
  ops_between_load_or_store (ws_ctr ws') =
    (if is_mem ins then 0 else ops_between_load_or_store (ws_ctr ws) + 1)%Z /\
  local_memory_access_count (ws_ctr ws') =
    (local_memory_access_count (ws_ctr ws) + if mem_in_space AddrSpaceLocal ins then 1 else 0)%Z /\
  global_memory_access_count (ws_ctr ws') =
    (global_memory_access_count (ws_ctr ws) + if mem_in_space AddrSpaceGlobal ins then 1 else 0)%Z /\
  constant_memory_access_count (ws_ctr ws') =
    (constant_memory_access_count (ws_ctr ws)
     + if mem_in_space AddrSpaceConstant ins then 1 else 0)%Z /\
  history_total (branchOps (ws_maps ws')) =
    (history_total (branchOps (ws_maps ws))
     + if previous_instruction_is_branch (ws_branch ws) then 1 else 0)%nat /\
  ws_branch ws' =
    match i_label_operands ins with
    | Some (t1, t2) =>
        if is_cond_branch ins then mkBranchState true (Some t1) (Some t2) (Some (i_ptr ins))
        else mkBranchState false (target1 (ws_branch ws)) (target2 (ws_branch ws))
               (branch_loc (ws_branch ws))
    | None => mkBranchState false (target1 (ws_branch ws)) (target2 (ws_branch ws))
                (branch_loc (ws_branch ws))
    end.
Proof.
  intros H. unfold instructionExecuted in H.
  set (bres := if previous_instruction_is_branch (ws_branch ws) then _ else _) in H.
  assert (Hb : forall bo', bres = Some bo' ->
            history_total bo' = (history_total (branchOps (ws_maps ws))
              + if previous_instruction_is_branch (ws_branch ws) then 1 else 0)%nat).
  { intros bo' E. unfold bres in E.
    destruct (previous_instruction_is_branch (ws_branch ws)).
    - destruct (decide _); [|destruct (decide _)]; [| |discriminate];
        injection E as <-; rewrite history_total_push; lia.
    - injection E as <-. lia. }
  unfold is_mem, mem_in_space, is_cond_branch.
  destruct (i_mem ins) as [|sp nm|sp nm]; cbn [negb andb] in H |- *;
  [|destruct (Z.eqb_spec sp AddrSpaceLocal) as [->|Hl];
      [|destruct (Z.eqb_spec sp AddrSpaceGlobal) as [->|Hg];
        [|destruct (Z.eqb_spec sp AddrSpaceConstant) as [->|Hc]]]
   |destruct (Z.eqb_spec sp AddrSpaceLocal) as [->|Hl];
      [|destruct (Z.eqb_spec sp AddrSpaceGlobal) as [->|Hg];
        [|destruct (Z.eqb_spec sp AddrSpaceConstant) as [->|Hc]]]];
  destruct bres as [bo'|]; try discriminate; specialize (Hb bo' eq_refl);
  injection H as <-; cbn [ws_ctr ws_maps ws_branch instruction_count workitem_instruction_count
    computeOps instructionWidth instructionsBetweenLoadOrStore ops_between_load_or_store
    local_memory_access_count global_memory_access_count constant_memory_access_count
    branchOps];
  repeat (match goal with
          | Hn : ?a <> ?b |- context [Z.eqb ?a ?b] => rewrite (proj2 (Z.eqb_neq a b) Hn)
          end);
  unfold AddrSpaceLocal, AddrSpaceGlobal, AddrSpaceConstant; cbn [Z.eqb Pos.eqb];
  repeat split; try lia; try reflexivity; try exact Hb;
  destruct (i_label_operands ins) as [[t1 t2]|];
  destruct (Z.eqb (i_opcode ins) Br); destruct (Nat.eqb (i_num_operands ins) 3);
  reflexivity.
Qed.


(** The branch bookkeeping of one call: it aborts exactly when the
    previous instruction was a conditional branch and the block reached is
    neither of its targets; otherwise it appends one outcome for that
    branch, [true] when the first target was reached. *)
Lemma instr_branch ws ins r :
  match instructionExecuted ws ins r with
  | None =>
      previous_instruction_is_branch (ws_branch ws) = true /\
      target1 (ws_branch ws) <> Some (i_parent ins) /\
      target2 (ws_branch ws) <> Some (i_parent ins)
  | Some ws' =>
      branchOps (ws_maps ws') =
        (if previous_instruction_is_branch (ws_branch ws)
         then push_outcome (branchOps (ws_maps ws)) (default 0%Z (branch_loc (ws_branch ws)))
                (bool_decide (target1 (ws_branch ws) = Some (i_parent ins)))
         else branchOps (ws_maps ws)) /\
      (previous_instruction_is_branch (ws_branch ws) = true ->
       target1 (ws_branch ws) = Some (i_parent ins) \/
       target2 (ws_branch ws) = Some (i_parent ins))
  end.
Proof.
  unfold instructionExecuted.
  destruct (i_mem ins) as [|sp nm|sp nm]; cbn [negb andb];
  [|destruct (Z.eqb sp AddrSpaceLocal); [|destruct (Z.eqb sp AddrSpaceGlobal);
      [|destruct (Z.eqb sp AddrSpaceConstant)]]
   |destruct (Z.eqb sp AddrSpaceLocal); [|destruct (Z.eqb sp AddrSpaceGlobal);
      [|destruct (Z.eqb sp AddrSpaceConstant)]]];
  destruct (previous_instruction_is_branch (ws_branch ws));
  try (split; [reflexivity|discriminate]);
  (destruct (decide (target1 (ws_branch ws) = Some (i_parent ins))) as [E1|N1];
   [split; [rewrite bool_decide_eq_true_2 by exact E1; reflexivity|left; exact E1]|
    destruct (decide (target2 (ws_branch ws) = Some (i_parent ins))) as [E2|N2];
    [split; [rewrite bool_decide_eq_false_2 by exact N1; reflexivity|right; exact E2]|
     split; [reflexivity|split; assumption]]]).
Qed.

Lemma instr_flag ws ins r ws' :
  instructionExecuted ws ins r = Some ws' ->
  previous_instruction_is_branch (ws_branch ws') = is_cond_branch ins.
Proof.
  intros H. destruct (instr_step ws ins r ws' H) as (_&_&_&_&_&_&_&_&_&_&E).
  rewrite E. unfold is_cond_branch.
  destruct (i_label_operands ins) as [[t1 t2]|];
    destruct (Z.eqb (i_opcode ins) Br); destruct (Nat.eqb (i_num_operands ins) 3);
    reflexivity.
Qed.

Lemma run_instrs_cons ws ins r rest ws' :
  run_instrs ws ((ins, r) :: rest) = Some ws' ->
  exists ws1, instructionExecuted ws ins r = Some ws1 /\ run_instrs ws1 rest = Some ws'.
Proof.
  cbn [run_instrs]. destruct (instructionExecuted ws ins r) as [ws1|]; [|discriminate].
  intros H. exists ws1. split; [reflexivity|exact H].
Qed.

Lemma filter_cons_len {A} (f : A -> bool) x l :
  length (List.filter f (x :: l)) = ((if f x then 1 else 0) + length (List.filter f l))%nat.
Proof. cbn [List.filter]. destruct (f x); reflexivity. Qed.

(** X1.  Over a run of instructions, every conditional branch adds one
    outcome to the branch histories, at the next instruction: the number of
    recorded outcomes plus the pending-branch flag grows by the number of
    conditional branches executed. *)
Theorem run_instrs_branch_outcomes ws l ws' :
  run_instrs ws l = Some ws' ->
  (history_total (branchOps (ws_maps ws'))
   + if previous_instruction_is_branch (ws_branch ws') then 1 else 0)%nat =
  (history_total (branchOps (ws_maps ws))
   + (if previous_instruction_is_branch (ws_branch ws) then 1 else 0)
   + length (List.filter (fun p => is_cond_branch p.1) l))%nat.
Proof.
  revert ws. induction l as [|[ins r] rest IH]; intros ws H.
  - injection H as <-. cbn. lia.
  - destruct (run_instrs_cons ws ins r rest ws' H) as (ws1 & H1 & H2).
    rewrite (IH ws1 H2), filter_cons_len. cbn [fst].
    destruct (instr_step ws ins r ws1 H1) as (_&_&_&_&_&_&_&_&_&Hh&_).
    rewrite Hh, (instr_flag ws ins r ws1 H1).
    destruct (is_cond_branch ins); destruct (previous_instruction_is_branch (ws_branch ws)); lia.
Qed.

Lemma run_instrs_branch_outcomes_witness :
  let ins := mkInstruction 7 Br 1 NotMemory 3 (Some (10, 11)%Z) in
  let nxt := mkInstruction 8 0 11 NotMemory 2 None in
  exists ws', run_instrs initial_worker [(ins, 0%Z); (nxt, 0%Z)] = Some ws' /\
  (history_total (branchOps (ws_maps ws'))
   + if previous_instruction_is_branch (ws_branch ws') then 1 else 0)%nat = 1%nat.
Proof.
  intros ins nxt. eexists. split; [reflexivity|].
  rewrite (run_instrs_branch_outcomes initial_worker [(ins, 0%Z); (nxt, 0%Z)] _ eq_refl).
  vm_compute. reflexivity.
Defined.

(** X2.  Over a run of instructions, [instruction_count] and
    [workitem_instruction_count] grow by the number of instructions, and
    so do the totals of [computeOps] and of [instructionWidth], modulo
    2^64 (their [size_t] counters). *)
Theorem run_instrs_counters ws l ws' :
  run_instrs ws l = Some ws' ->
  instruction_count (ws_ctr ws') = (instruction_count (ws_ctr ws) + Z.of_nat (length l))%Z /\
  workitem_instruction_count (ws_ctr ws') =
    (workitem_instruction_count (ws_ctr ws) + Z.of_nat (length l))%Z /\
  (spec_total (computeOps (ws_maps ws')) mod two64 =
     (spec_total (computeOps (ws_maps ws)) + Z.of_nat (length l)) mod two64)%Z /\
  (spec_total (instructionWidth (ws_maps ws')) mod two64 =
     (spec_total (instructionWidth (ws_maps ws)) + Z.of_nat (length l)) mod two64)%Z.
Proof.
  revert ws. induction l as [|[ins r] rest IH]; intros ws H.
  - injection H as <-. cbn [length]. rewrite !Z.add_0_r. repeat split; reflexivity.
  - destruct (run_instrs_cons ws ins r rest ws' H) as (ws1 & H1 & H2).
    destruct (IH ws1 H2) as (A1 & A2 & A3 & A4).
    destruct (instr_step ws ins r ws1 H1) as (B1 & B2 & B3 & B4 & _).
    rewrite A1, A2, A3, A4, B1, B2, B3, B4. cbn [length].
    split; [lia|]. split; [lia|].
    split; rewrite <- Z.add_mod_idemp_l, spec_total_incr64, Z.add_mod_idemp_l
      by (unfold two64; lia); f_equal; lia.
Qed.

Lemma run_instrs_counters_witness :
  let l := [(mkInstruction 1 13 1 NotMemory 2 None, 32%Z);
            (mkInstruction 2 13 1 NotMemory 2 None, 32%Z)] in
  exists ws', run_instrs initial_worker l = Some ws' /\
    instruction_count (ws_ctr ws') = 2%Z.
Proof.
  intros l. eexists. split; [reflexivity|].
  rewrite (proj1 (run_instrs_counters initial_worker l _ eq_refl)). reflexivity.
Defined.

(** X3.  Over a run of instructions, one load/store gap is recorded per
    load or store, and the local, global and constant access counters grow
    by the number of loads and stores in their address space (private and
    other spaces are not counted). *)
Theorem run_instrs_memory ws l ws' :
  run_instrs ws l = Some ws' ->
  length (instructionsBetweenLoadOrStore (ws_maps ws')) =
    (length (instructionsBetweenLoadOrStore (ws_maps ws))
     + length (List.filter (fun p => is_mem p.1) l))%nat /\
  local_memory_access_count (ws_ctr ws') =
    (local_memory_access_count (ws_ctr ws)
     + Z.of_nat (length (List.filter (fun p => mem_in_space AddrSpaceLocal p.1) l)))%Z /\
  global_memory_access_count (ws_ctr ws') =
    (global_memory_access_count (ws_ctr ws)
     + Z.of_nat (length (List.filter (fun p => mem_in_space AddrSpaceGlobal p.1) l)))%Z /\
  constant_memory_access_count (ws_ctr ws') =
    (constant_memory_access_count (ws_ctr ws)
     + Z.of_nat (length (List.filter (fun p => mem_in_space AddrSpaceConstant p.1) l)))%Z.
Proof.
  revert ws. induction l as [|[ins r] rest IH]; intros ws H.
  - injection H as <-. cbn. repeat split; lia.
  - destruct (run_instrs_cons ws ins r rest ws' H) as (ws1 & H1 & H2).
    destruct (IH ws1 H2) as (A1 & A2 & A3 & A4).
    destruct (instr_step ws ins r ws1 H1) as (_&_&_&_&B5&_&B7&B8&B9&_).
    rewrite A1, A2, A3, A4, B7, B8, B9, B5, !filter_cons_len. cbn [fst].
    destruct (is_mem ins); [unfold push32; rewrite length_app; cbn [length]|];
    repeat split; try lia;
    destruct (mem_in_space AddrSpaceLocal ins), (mem_in_space AddrSpaceGlobal ins),
      (mem_in_space AddrSpaceConstant ins); lia.
Qed.

Lemma run_instrs_memory_witness :
  let l := [(mkInstruction 1 31 1 (LoadInst AddrSpaceGlobal "a") 1 None, 0%Z);
            (mkInstruction 2 0 1 NotMemory 2 None, 0%Z);
            (mkInstruction 3 32 1 (StoreInst AddrSpaceLocal "b") 2 None, 0%Z)]%string in
  exists ws', run_instrs initial_worker l = Some ws' /\
    length (instructionsBetweenLoadOrStore (ws_maps ws')) = 2%nat.
Proof.
  intros l. eexists. split; [reflexivity|].
  rewrite (proj1 (run_instrs_memory initial_worker l _ eq_refl)). reflexivity.
Defined.

Lemma run_instrs_gaps ws l ws' :
  run_instrs ws l = Some ws' ->
  (0 <= ops_between_load_or_store (ws_ctr ws))%Z ->
  (ops_between_load_or_store (ws_ctr ws) + Z.of_nat (length l) < two32)%Z ->
  (sumZ (instructionsBetweenLoadOrStore (ws_maps ws')) + ops_between_load_or_store (ws_ctr ws')
   = sumZ (instructionsBetweenLoadOrStore (ws_maps ws)) + ops_between_load_or_store (ws_ctr ws)
     + Z.of_nat (length l))%Z /\
  (0 <= ops_between_load_or_store (ws_ctr ws')
      <= ops_between_load_or_store (ws_ctr ws) + Z.of_nat (length l))%Z.
Proof.
  revert ws. induction l as [|[ins r] rest IH]; intros ws H Hlo Hhi.
  - injection H as <-. cbn [length]. lia.
  - destruct (run_instrs_cons ws ins r rest ws' H) as (ws1 & H1 & H2).
    destruct (instr_step ws ins r ws1 H1) as (_&_&_&_&B5&B6&_).
    cbn [length] in Hhi.
    assert (Hb : (0 <= ops_between_load_or_store (ws_ctr ws1)
                   <= ops_between_load_or_store (ws_ctr ws) + 1)%Z)
      by (rewrite B6; destruct (is_mem ins); lia).
    destruct (IH ws1 H2 ltac:(lia) ltac:(lia)) as [A1 A2].
    split; [|cbn [length]; lia].
    rewrite A1, B5, B6. cbn [length].
    destruct (is_mem ins); [|lia].
    unfold push32, sumZ. rewrite fold_right_app. cbn [fold_right].
    rewrite Z.mod_small by lia.
    assert (Hf : forall (l0 : list Z) (x : Z),
               fold_right Z.add x l0 = (fold_right Z.add 0 l0 + x)%Z).
    { induction l0 as [|y l0 IHl]; intros x; cbn [fold_right]; [lia|rewrite IHl; lia]. }
    rewrite Hf. lia.
Qed.

(** X4.  No executed instruction is lost between loads and stores: as
    long as the [uint32_t] gaps cannot wrap, the recorded gaps plus the
    running counter grow by exactly the number of instructions run. *)
Theorem run_instrs_gap_sum ws l ws' :
  run_instrs ws l = Some ws' ->
  (0 <= ops_between_load_or_store (ws_ctr ws))%Z ->
  (ops_between_load_or_store (ws_ctr ws) + Z.of_nat (length l) < two32)%Z ->
  (sumZ (instructionsBetweenLoadOrStore (ws_maps ws')) + ops_between_load_or_store (ws_ctr ws')
   = sumZ (instructionsBetweenLoadOrStore (ws_maps ws)) + ops_between_load_or_store (ws_ctr ws)
     + Z.of_nat (length l))%Z.
Proof. intros H Hlo Hhi. exact (proj1 (run_instrs_gaps ws l ws' H Hlo Hhi)). Qed.

Lemma run_instrs_gap_sum_witness :
  let l := [(mkInstruction 1 13 1 NotMemory 2 None, 0%Z);
            (mkInstruction 2 31 1 (LoadInst AddrSpaceGlobal "a") 1 None, 0%Z);
            (mkInstruction 3 13 1 NotMemory 2 None, 0%Z)]%string in
  exists ws', run_instrs initial_worker l = Some ws' /\
    (0 <= ops_between_load_or_store (ws_ctr initial_worker))%Z /\
    (ops_between_load_or_store (ws_ctr initial_worker) + Z.of_nat (length l) < two32)%Z /\
    (sumZ (instructionsBetweenLoadOrStore (ws_maps ws')) + ops_between_load_or_store (ws_ctr ws')
     = 3)%Z.
Proof.
  intros l. eexists. split; [reflexivity|]. split; [cbn; lia|]. split; [vm_compute; reflexivity|].
  rewrite (run_instrs_gap_sum initial_worker l _ eq_refl ltac:(cbn; lia)
             ltac:(vm_compute; reflexivity)).
  reflexivity.
Defined.

(** X5.  A conditional branch followed by another instruction: the second
    call aborts exactly when its block is neither target of the branch,
    and otherwise appends to the history of the branch instruction itself
    [true] if its block is the first target and [false] if not. *)
Theorem branch_then_next ws b r1 ws1 n r2 t1 t2 :
  instructionExecuted ws b r1 = Some ws1 ->
  is_cond_branch b = true ->
  i_label_operands b = Some (t1, t2) ->
  (instructionExecuted ws1 n r2 = None <-> i_parent n <> t1 /\ i_parent n <> t2) /\
  forall ws2, instructionExecuted ws1 n r2 = Some ws2 ->
    branchOps (ws_maps ws2) =
      push_outcome (branchOps (ws_maps ws1)) (i_ptr b) (bool_decide (i_parent n = t1)).
Proof.
  intros H Hc Hl.
  destruct (instr_step ws b r1 ws1 H) as (_&_&_&_&_&_&_&_&_&_&E).
  rewrite Hl, Hc in E.
  pose proof (instr_branch ws1 n r2) as Hb. rewrite E in Hb.
  cbn [previous_instruction_is_branch target1 target2 branch_loc] in Hb.
  change (default 0%Z (Some (i_ptr b))) with (i_ptr b) in Hb.
  split.
  - destruct (instructionExecuted ws1 n r2) as [ws2|].
    + split; [discriminate|]. intros [N1 N2].
      destruct Hb as [_ [Hb|Hb]]; [reflexivity|congruence|congruence].
    + split; [intros _|reflexivity].
      destruct Hb as (_ & N1 & N2). split; congruence.
  - intros ws2 E2. rewrite E2 in Hb. destruct Hb as [Hb _]. rewrite Hb.
    f_equal. apply bool_decide_ext. split; congruence.
Qed.

Lemma branch_then_next_witness :
  let b := mkInstruction 7 Br 1 NotMemory 3 (Some (10, 11)%Z) in
  let n := mkInstruction 8 0 11 NotMemory 2 None in
  exists ws1, instructionExecuted initial_worker b 0 = Some ws1 /\
    is_cond_branch b = true /\ i_label_operands b = Some (10, 11)%Z /\
    (instructionExecuted ws1 n 0 = None <-> i_parent n <> 10%Z /\ i_parent n <> 11%Z).
Proof.
  intros b n. eexists. split; [reflexivity|]. split; [reflexivity|]. split; [reflexivity|].
  exact (proj1 (branch_then_next initial_worker b 0 _ n 0 10 11 eq_refl eq_refl eq_refl)).
Defined.

End InstrFacts.

(* ------------------------------------------------------------------ *)
(** ** The branch and parallelism metrics of [logMetrics] *)

Module ReportFacts.
Import Entropy EntropyFacts Plugin Metrics Report.

Lemma all_from_spec f n z :
  all_from f n z = true -> forall x, (z <= x < z + Z.of_nat n)%Z -> f x = true.
Proof.
  revert z. induction n as [|n IH]; intros z H x Hx; [lia|].
  cbn [all_from] in H. apply andb_prop in H as [H1 H2].
  destruct (Z.eq_dec x z) as [->|Hne]; [exact H1|].
  apply (IH (z + 1)%Z H2). lia.
Qed.

Lemma kernighan_table :
  all_from (fun p => Z.eqb (kernighan p) (popcount16 p)) (Z.to_nat 65536) 0 = true.
Proof. vm_compute. reflexivity. Qed.

(** X6.  Kernighan's loop [while (p) { p &= p - 1; taken++; }] counts the
    set bits of every 16-bit pattern. *)
Theorem kernighan_popcount p :
  (0 <= p < 65536)%Z -> kernighan p = popcount16 p.
Proof.
  intros Hp. apply Z.eqb_eq.
  apply (all_from_spec _ (Z.to_nat 65536) 0 kernighan_table).
  rewrite Z2Nat.id by lia. lia.
Qed.

Lemma kernighan_popcount_witness :
  (0 <= 48879 < 65536)%Z /\ kernighan 48879 = 13%Z.
Proof.
  split; [lia|]. rewrite (kernighan_popcount 48879 ltac:(lia)). vm_compute. reflexivity.
Defined.

Lemma kernighan_go_range fuel p t r :
  kernighan_go fuel p t = Some r -> (t <= r < t + Z.of_nat fuel)%Z.
Proof.
  revert p t. induction fuel as [|f IH]; intros p t H; cbn [kernighan_go] in H;
    [discriminate|].
  destruct (Z.eqb p 0).
  - injection H as <-. lia.
  - apply IH in H. lia.
Qed.

Lemma kernighan_range p : (0 <= kernighan p <= 16)%Z.
Proof.
  unfold kernighan. destruct (kernighan_go 17 p 0) as [r|] eqn:E; cbn [default].
  - apply kernighan_go_range in E. cbn in E |- *. lia.
  - lia.
Qed.

Lemma linear_entropy_bounds (q : R) :
  (0 <= q <= 1)%R -> (0 <= 2 * Rmin q (1 - q) <= 1)%R.
Proof. intros Hq. unfold Rmin. destruct (Rle_dec q (1 - q)); lra. Qed.

Lemma branch_pattern_step_fields pattern occ acc :
  let taken := kernighan pattern in
  let q := (IZR taken / IZR (16 - taken + taken))%R in
  ba_sum (branch_pattern_step pattern occ acc) =
    (ba_sum acc + IZR (occ mod two32) * (2 * Rmin q (1 - q)))%R /\
  ba_n (branch_pattern_step pattern occ acc) = ((ba_n acc + occ mod two32) mod two32)%Z.
Proof.
  unfold branch_pattern_step. destruct (Req_EM_T _ _); split; reflexivity.
Qed.

Definition acc_inv (acc : BranchAcc) : Prop :=
  (0 <= ba_n acc)%Z /\ (0 <= ba_sum acc <= IZR (ba_n acc))%R.

Lemma branch_pattern_step_inv pattern occ acc :
  acc_inv acc -> (0 <= occ)%Z -> (ba_n acc + occ < two32)%Z ->
  acc_inv (branch_pattern_step pattern occ acc) /\
  ba_n (branch_pattern_step pattern occ acc) = (ba_n acc + occ)%Z.
Proof.
  intros [Hn [Hs1 Hs2]] Ho Hlt.
  destruct (branch_pattern_step_fields pattern occ acc) as [E1 E2].
  cbn zeta in E1, E2.
  rewrite (Z.mod_small occ) in E1, E2 by lia.
  rewrite Z.mod_small in E2 by lia.
  pose proof (kernighan_range pattern) as Hk.
  set (t := kernighan pattern) in *.
  replace (16 - t + t)%Z with 16%Z in E1 by lia.
  assert (Hq : (0 <= IZR t / 16 <= 1)%R).
  { destruct Hk as [Hk0 Hk1]. apply IZR_le in Hk0, Hk1.
    replace (IZR 0) with 0%R in Hk0 by reflexivity. split; unfold Rdiv; lra. }
  pose proof (linear_entropy_bounds _ Hq) as Hl.
  assert (Ho' : (0 <= IZR occ)%R) by (apply IZR_le in Ho; exact Ho).
  split; [|exact E2].
  unfold acc_inv. rewrite E1, E2, plus_IZR. split; [lia|]. nra.
Qed.

Definition occ_sum {A} (l : list (A * Z)) : Z :=
  foldr (uncurry (fun (_ : A) cnt acc => cnt + acc)%Z) 0%Z l.

Lemma occ_sum_nonneg {A} (l : list (A * Z)) :
  Forall (fun p => 0 <= p.2)%Z l -> (0 <= occ_sum l)%Z.
Proof.
  induction l as [|[a c] l IH]; intros Hl; cbn; [lia|].
  apply Forall_cons in Hl as [Hc Hl]. specialize (IH Hl). cbn in Hc. unfold occ_sum in IH. lia.
Qed.

Lemma map_Forall_nonneg (m : gmap Z Z) :
  map_Forall (fun _ c => 0 <= c)%Z m -> Forall (fun p => 0 <= p.2)%Z (map_to_list m).
Proof.
  intros H. apply map_Forall_to_list in H. eapply Forall_impl; [exact H|].
  intros [a c] Hc. exact Hc.
Qed.

Lemma inner_fold_inv (l : list (Z * Z)) acc :
  acc_inv acc -> Forall (fun p => 0 <= p.2)%Z l -> (ba_n acc + occ_sum l < two32)%Z ->
  acc_inv (foldr (uncurry branch_pattern_step) acc l) /\
  ba_n (foldr (uncurry branch_pattern_step) acc l) = (ba_n acc + occ_sum l)%Z.
Proof.
  induction l as [|[pat c] l IH]; intros Hi Hl Hlt; cbn [foldr].
  - split; [exact Hi|]. cbn. lia.
  - apply Forall_cons in Hl as [Hc Hl]. cbn in Hc.
    pose proof (occ_sum_nonneg l Hl) as Hs.
    assert (Hlt' : (ba_n acc + occ_sum l < two32)%Z) by (cbn in Hlt; unfold occ_sum in *; lia).
    destruct (IH Hi Hl Hlt') as [I1 I2]. cbn [uncurry].
    destruct (branch_pattern_step_inv pat c _ I1 Hc) as [J1 J2];
      [rewrite I2; cbn in Hlt; unfold occ_sum in *; lia|].
    split; [exact J1|]. rewrite J2, I2. cbn. unfold occ_sum. lia.
Qed.

Lemma outer_fold_inv (l : list (Z * gmap Z Z)) acc :
  acc_inv acc ->
  Forall (fun p => map_Forall (fun _ c => 0 <= c)%Z p.2) l ->
  (ba_n acc + foldr (uncurry (fun (_ : Z) inner acc => spec_total inner + acc)%Z) 0%Z l
     < two32)%Z ->
  acc_inv (foldr (uncurry (fun _ inner acc => map_fold branch_pattern_step acc inner)) acc l)
  /\ ba_n (foldr (uncurry (fun _ inner acc => map_fold branch_pattern_step acc inner)) acc l)
     = (ba_n acc
        + foldr (uncurry (fun (_ : Z) inner acc => spec_total inner + acc)%Z) 0%Z l)%Z.
Proof.
  intros Hi Hl. revert acc Hi. induction l as [|[site inner] l IH]; intros acc Hi Hlt; cbn [foldr].
  - split; [exact Hi|]. cbn. lia.
  - apply Forall_cons in Hl as [Hc Hl]. cbn [snd] in Hc.
    apply map_Forall_nonneg in Hc.
    assert (Hin : (0 <= spec_total inner)%Z).
    { rewrite spec_total_foldr. exact (occ_sum_nonneg _ Hc). }
    assert (Hrest : (0 <= foldr (uncurry (fun (_ : Z) inner acc => spec_total inner + acc)%Z)
                            0%Z l)%Z).
    { clear IH Hlt. induction l as [|[s' i'] l IHl]; cbn [foldr uncurry]; [lia|].
      apply Forall_cons in Hl as [Hc' Hl]. cbn [snd] in Hc'.
      apply map_Forall_nonneg in Hc'. rewrite spec_total_foldr.
      pose proof (occ_sum_nonneg _ Hc'). specialize (IHl Hl). unfold occ_sum in *. lia. }
    cbn [foldr uncurry] in Hlt |- *.
    destruct (IH Hl acc Hi ltac:(lia)) as [I1 I2].
    rewrite map_fold_foldr.
    destruct (inner_fold_inv (map_to_list inner) _ I1 Hc) as [J1 J2];
      [rewrite I2; unfold occ_sum; rewrite <- spec_total_foldr; lia|].
    split; [exact J1|]. rewrite J2, I2; unfold occ_sum; rewrite <- spec_total_foldr. lia.
Qed.

(** X7.  When the pattern counts are non-negative and their total fits in
    the [unsigned] accumulator [N], the reported average linear branch
    entropy is finite and lies in [0, 1]; it is 0 when no pattern was
    recorded (no pattern at all, or only patterns counted 0). *)
Theorem average_linear_branch_entropy_bounds pats :
  map_Forall (fun _ inner => map_Forall (fun _ c => 0 <= c)%Z inner) pats ->
  (pattern_occurrences pats < two32)%Z ->
  (exists r, average_linear_branch_entropy pats = Fin r /\ (0 <= r <= 1)%R) /\
  (pattern_occurrences pats = 0%Z -> average_linear_branch_entropy pats = Fin 0%R).
Proof.
  intros Hnn Hlt.
  assert (Hi : acc_inv (branch_acc pats) /\ ba_n (branch_acc pats) = pattern_occurrences pats).
  { unfold branch_acc, pattern_occurrences in *. rewrite !map_fold_foldr in *.
    destruct (outer_fold_inv (map_to_list pats) (mkBranchAcc 0 0 0 0)) as [I1 I2];
      [| |cbn [ba_n]; lia|].
    - unfold acc_inv. cbn [ba_n ba_sum]. split; [lia|lra].
    - apply map_Forall_to_list in Hnn. eapply Forall_impl; [exact Hnn|].
      intros [s inner] H. exact H.
    - split; [exact I1|]. rewrite I2. cbn [ba_n]. lia. }
  destruct Hi as [[Hn [Hs1 Hs2]] Hocc].
  unfold average_linear_branch_entropy.
  destruct (Z.eqb_spec (ba_n (branch_acc pats)) 0) as [E|E].
  - rewrite E in Hs2. replace (IZR 0) with 0%R in Hs2 by reflexivity.
    destruct (Req_EM_T (ba_sum (branch_acc pats)) 0) as [_|N]; [|lra].
    split; [|reflexivity].
    exists 0%R. split; [reflexivity|lra].
  - split; [|intros Z0; lia].
    assert (Hp : (0 < IZR (ba_n (branch_acc pats)))%R) by (apply IZR_lt; lia).
    exists (ba_sum (branch_acc pats) / IZR (ba_n (branch_acc pats)))%R.
    split; [reflexivity|]. split.
    + unfold Rdiv. apply Rmult_le_pos; [lra|]. left. apply Rinv_0_lt_compat, Hp.
    + apply (Rmult_le_reg_r (IZR (ba_n (branch_acc pats)))); [exact Hp|].
      unfold Rdiv. rewrite Rmult_assoc, Rinv_l by lra. lra.
Qed.

Lemma average_linear_branch_entropy_bounds_witness :
  let pats := {[ 5%Z := {[ 65535%Z := 3%Z; 255%Z := 1%Z ]} ]} : gmap Z (gmap Z Z) in
  let pats0 := {[ 5%Z := ∅ ]} : gmap Z (gmap Z Z) in
  map_Forall (fun _ inner => map_Forall (fun _ c => 0 <= c)%Z inner) pats /\
  (pattern_occurrences pats < two32)%Z /\
  (exists r, average_linear_branch_entropy pats = Fin r /\ (0 <= r <= 1)%R) /\
  pattern_occurrences pats0 = 0%Z /\ average_linear_branch_entropy pats0 = Fin 0%R.
Proof.
  intros pats pats0.
  assert (H1 : map_Forall (fun _ inner => map_Forall (fun _ c => 0 <= c)%Z inner) pats).
  { apply (bool_decide_unpack _). vm_compute. reflexivity. }
  assert (H2 : (pattern_occurrences pats < two32)%Z) by (vm_compute; reflexivity).
  assert (G1 : map_Forall (fun _ inner => map_Forall (fun _ c => 0 <= c)%Z inner) pats0).
  { apply (bool_decide_unpack _). vm_compute. reflexivity. }
  assert (G0 : pattern_occurrences pats0 = 0%Z) by (vm_compute; reflexivity).
  assert (G2 : (pattern_occurrences pats0 < two32)%Z) by (rewrite G0; reflexivity).
  split; [exact H1|]. split; [exact H2|].
  split; [exact (proj1 (average_linear_branch_entropy_bounds pats H1 H2))|].
  split; [exact G0|].
  exact (proj2 (average_linear_branch_entropy_bounds pats0 G1 G2) G0).
Defined.


Lemma deref_some {A} (l : list A) i x : l !! i = Some x -> deref l i = Defined x.
Proof. unfold deref. intros ->. reflexivity. Qed.

Lemma sorted_perm_merge_sort (s v : list Z) :
  Sorted Z.le s -> s ≡ₚ v -> s = merge_sort Z.le v.
Proof.
  intros Hs Hp. apply (Sorted_unique Z.le); [exact Hs|apply Sorted_merge_sort; intros x y; lia|].
  rewrite merge_sort_Permutation. exact Hp.
Qed.

(** X8.  The median of a non-empty vector (whose size fits in a [size_t])
    is defined and lies between two of its elements, as long as, for an
    even size, the [uint32_t] sum of the two middle elements of the sorted
    vector does not wrap; an odd size needs no condition.  The median of an
    empty vector reads out of bounds. *)
Theorem median_between v :
  median [] = Undefined /\
  (v <> [] -> (Z.of_nat (length v) < two64)%Z -> Forall (fun x => 0 <= x)%Z v ->
   (forall s lo hi, s ≡ₚ v -> Sorted Z.le s -> (length v mod 2 = 0)%nat ->
      s !! (length v / 2 - 1)%nat = Some lo -> s !! (length v / 2)%nat = Some hi ->
      (lo + hi < two32)%Z) ->
   exists m, median v = Defined m /\
     (exists x, x ∈ v /\ x <= m)%Z /\ (exists y, y ∈ v /\ m <= y)%Z).
Proof.
  split; [reflexivity|]. intros Hne Hsz Hnn Hmid.
  unfold median.
  set (itb := merge_sort Z.le v).
  assert (Hp : itb ≡ₚ v) by apply merge_sort_Permutation.
  assert (Hsorted : Sorted Z.le itb) by (apply Sorted_merge_sort; intros x y; lia).
  assert (Hin : forall i x, itb !! i = Some x -> x ∈ v).
  { intros i x Hi. rewrite <- Hp. apply list_elem_of_lookup_2 with i. exact Hi. }
  assert (Hlen : length itb = length v) by (apply Permutation_length, Hp).
  assert (Hv : (0 < length v)%nat) by (destruct v; [congruence|cbn; lia]).
  assert (Hpos : (0 < length itb)%nat) by lia.
  destruct (Z.eqb_spec (Z.of_nat (length itb) mod 2) 0) as [Ev|Od].
  - rewrite Hlen in Ev |- *.
    assert (Heven : (length v mod 2 = 0)%nat).
    { apply Nat2Z.inj. rewrite Nat2Z.inj_mod. exact Ev. }
    replace (Z.of_nat (length v) / 2)%Z with (Z.of_nat (length v / 2))
      by (rewrite Nat2Z.inj_div; reflexivity).
    assert (Hh : (1 <= length v / 2 < length v)%nat).
    { pose proof (Nat.div_mod (length v) 2 ltac:(lia)). lia. }
    assert (Hh' : (Z.of_nat (length v / 2) < two64)%Z).
    { destruct Hh as [_ Hh]. apply Nat2Z.inj_lt in Hh. lia. }
    rewrite Z.mod_small by lia.
    replace (Z.to_nat (Z.of_nat (length v / 2) - 1)) with (length v / 2 - 1)%nat by lia.
    rewrite Nat2Z.id.
    destruct (lookup_lt_is_Some_2 itb (length v / 2 - 1)%nat) as [lo Elo]; [lia|].
    destruct (lookup_lt_is_Some_2 itb (length v / 2)%nat) as [hi Ehi]; [lia|].
    rewrite (deref_some _ _ _ Elo). cbn [ub_bind]. rewrite (deref_some _ _ _ Ehi). cbn [ub_bind].
    pose proof (Hin _ _ Elo) as Ilo. pose proof (Hin _ _ Ehi) as Ihi.
    rewrite Forall_forall in Hnn.
    pose proof (Hnn _ Ilo). pose proof (Hnn _ Ihi).
    pose proof (Hmid itb lo hi Hp Hsorted Heven Elo Ehi).
    rewrite Z.mod_small by lia.
    eexists. split; [reflexivity|].
    destruct (Z.le_ge_cases lo hi).
    + split; [exists lo|exists hi]; split; try assumption;
        [apply Z.div_le_lower_bound|apply Z.div_le_upper_bound]; lia.
    + split; [exists hi|exists lo]; split; try assumption;
        [apply Z.div_le_lower_bound|apply Z.div_le_upper_bound]; lia.
  - destruct (lookup_lt_is_Some_2 itb (Z.to_nat (Z.of_nat (length itb) / 2))) as [x Ex];
      [apply Nat2Z.inj_lt; rewrite Z2Nat.id; [apply Z.div_lt|apply Z.div_pos]; lia|].
    rewrite (deref_some _ _ _ Ex). eexists. split; [reflexivity|].
    pose proof (Hin _ _ Ex). split; exists x; split; auto; lia.
Qed.

Lemma median_between_witness :
  let v := [2; 4294967295; 0; 1]%Z in
  let w := [4294967295; 7; 4294967295]%Z in
  (exists m, median v = Defined m /\
    (exists x, x ∈ v /\ x <= m)%Z /\ (exists y, y ∈ v /\ m <= y)%Z) /\
  (exists m, median w = Defined m /\
    (exists x, x ∈ w /\ x <= m)%Z /\ (exists y, y ∈ w /\ m <= y)%Z).
Proof.
  intros v w. split.
  - assert (H1 : v <> []) by discriminate.
    assert (H2 : (Z.of_nat (length v) < two64)%Z) by (vm_compute; reflexivity).
    assert (H3 : Forall (fun x => 0 <= x)%Z v) by (repeat (constructor; [lia|]); constructor).
    assert (H4 : forall s lo hi, s ≡ₚ v -> Sorted Z.le s -> (length v mod 2 = 0)%nat ->
      s !! (length v / 2 - 1)%nat = Some lo -> s !! (length v / 2)%nat = Some hi ->
      (lo + hi < two32)%Z).
    { intros s lo hi Hp Hs _ Hlo Hhi.
      rewrite (sorted_perm_merge_sort s v Hs Hp) in Hlo, Hhi.
      vm_compute in Hlo, Hhi. injection Hlo as <-. injection Hhi as <-.
      vm_compute. reflexivity. }
    exact (proj2 (median_between v) H1 H2 H3 H4).
  - assert (H1 : w <> []) by discriminate.
    assert (H2 : (Z.of_nat (length w) < two64)%Z) by (vm_compute; reflexivity).
    assert (H3 : Forall (fun x => 0 <= x)%Z w) by (repeat (constructor; [lia|]); constructor).
    assert (H4 : forall s lo hi, s ≡ₚ w -> Sorted Z.le s -> (length w mod 2 = 0)%nat ->
      s !! (length w / 2 - 1)%nat = Some lo -> s !! (length w / 2)%nat = Some hi ->
      (lo + hi < two32)%Z).
    { intros s lo hi _ _ Hodd. vm_compute in Hodd. discriminate Hodd. }
    exact (proj2 (median_between w) H1 H2 H3 H4).
Defined.

(** X9.  The medians do not depend on the order in which the values were
    appended (the order in which work-items and work-groups completed). *)
Theorem median_perm v w : v ≡ₚ w -> median v = median w.
Proof.
  intros Hp. unfold median.
  assert (E : merge_sort Z.le v = merge_sort Z.le w).
  { apply (Sorted_unique Z.le); [apply Sorted_merge_sort; intros x y; lia..|].
    rewrite !merge_sort_Permutation. exact Hp. }
  rewrite E. reflexivity.
Qed.

Lemma median_perm_witness :
  [7; 1; 4; 2]%Z ≡ₚ [1; 2; 4; 7]%Z /\ median [7; 1; 4; 2]%Z = median [1; 2; 4; 7]%Z.
Proof.
  assert (Hp : [7; 1; 4; 2]%Z ≡ₚ [1; 2; 4; 7]%Z).
  { solve_Permutation. }
  split; [exact Hp|]. apply (median_perm _ _ Hp).
Defined.

Lemma sum_mod_fold (l : list Z) a :
  Forall (fun c => 0 <= c)%Z l -> (0 <= a)%Z -> (a + sumZ l < two64)%Z ->
  fold_left (fun acc c => (acc + c) mod two64)%Z l a = (a + sumZ l)%Z.
Proof.
  revert a. induction l as [|c l IH]; intros a Hl Ha Hlt; cbn [fold_left sumZ fold_right].
  - unfold sumZ. cbn. lia.
  - apply Forall_cons in Hl as [Hc Hl]. cbv beta in Hc.
    assert (Hs : (0 <= sumZ l)%Z).
    { clear IH Hlt. induction l as [|d l IHl]; [unfold sumZ; cbn; lia|].
      apply Forall_cons in Hl as [Hd Hl]. unfold sumZ in *. cbn. specialize (IHl Hl). lia. }
    unfold sumZ in Hlt. cbn [fold_right] in Hlt. fold (sumZ l) in Hlt.
    rewrite Z.mod_small by (clear IH; lia). rewrite IH; [|exact Hl|clear IH; lia|clear IH; lia]. unfold sumZ. cbn. fold (sumZ l). lia.
Qed.

Lemma sumZ_nonneg (l : list Z) : Forall (fun c => 0 <= c)%Z l -> (0 <= sumZ l)%Z.
Proof.
  induction l as [|d l IHl]; intros Hl; [unfold sumZ; cbn; lia|].
  apply Forall_cons in Hl as [Hd Hl]. unfold sumZ in *. cbn. specialize (IHl Hl). lia.
Qed.

Lemma footprint_go_spec (l : list Z) k acc target :
  Forall (fun c => 0 <= c)%Z l -> (0 <= acc)%Z -> (acc + sumZ l < two64)%Z ->
  (target <= acc + sumZ l)%Z ->
  exists j, footprint_go l k acc target = Defined (k + j)%nat /\ (j <= length l)%nat /\
    (target <= acc + sumZ (take j l))%Z /\
    forall i, (i < j)%nat -> (acc + sumZ (take i l) < target)%Z.
Proof.
  revert k acc. induction l as [|c l IH]; intros k acc Hl Ha Hlt Ht; cbn [footprint_go].
  - destruct (Z.ltb_spec acc target) as [Hlt'|Hge]; [unfold sumZ in Ht; cbn in Ht; lia|].
    exists 0%nat. rewrite Nat.add_0_r. split; [reflexivity|]. split; [cbn; lia|].
    split; [unfold sumZ; cbn; lia|]. intros i Hi; lia.
  - apply Forall_cons in Hl as [Hc Hl]. cbv beta in Hc.
    pose proof (sumZ_nonneg l Hl) as Hs.
    unfold sumZ in Hlt, Ht. cbn [fold_right] in Hlt, Ht. fold (sumZ l) in Hlt, Ht.
    destruct (Z.ltb_spec acc target) as [Hlt'|Hge].
    + rewrite Z.mod_small by lia.
      destruct (IH (S k) (acc + c)%Z Hl ltac:(lia) ltac:(lia) ltac:(lia))
        as (j & E & Hj & Hreach & Hleast).
      exists (S j). rewrite E. split; [f_equal; lia|]. split; [cbn; lia|].
      split.
      * unfold sumZ. cbn [take fold_right]. fold (sumZ (take j l)). lia.
      * intros [|i] Hi; [unfold sumZ; cbn; lia|].
        specialize (Hleast i ltac:(lia)). unfold sumZ. cbn [take fold_right].
        fold (sumZ (take i l)). lia.
    + exists 0%nat. rewrite Nat.add_0_r. split; [reflexivity|]. split; [lia|].
      split; [unfold sumZ; cbn; lia|]. intros i Hi; lia.
Qed.

(** X10.  For non-negative counts whose total does not wrap the [size_t]
    sum, the 90% footprint loop stays in bounds and returns the least
    number [k] of leading counts whose sum reaches
    [ceil(0.9 * total)]. *)
Theorem footprint_90pc_least counts :
  Forall (fun c => 0 <= c)%Z counts -> (sumZ counts < two64)%Z ->
  exists k, footprint_90pc counts = Defined k /\ (k <= length counts)%nat /\
    ((9 * sumZ counts + 9) / 10 <= sumZ (take k counts))%Z /\
    forall j, (j < k)%nat -> (sumZ (take j counts) < (9 * sumZ counts + 9) / 10)%Z.
Proof.
  intros Hnn Hlt. unfold footprint_90pc.
  rewrite sum_mod_fold by (auto; lia). rewrite Z.add_0_l.
  pose proof (sumZ_nonneg counts Hnn) as Hs.
  destruct (footprint_go_spec counts 0 0 ((9 * sumZ counts + 9) / 10) Hnn ltac:(lia)
              ltac:(lia)) as (j & E & Hj & H1 & H2).
  { Z.div_mod_to_equations. lia. }
  exists j. split; [exact E|]. split; [exact Hj|]. split; [lia|].
  intros i Hi. specialize (H2 i Hi). lia.
Qed.

Lemma footprint_90pc_least_witness :
  Forall (fun c => 0 <= c)%Z [5; 3; 1; 1]%Z /\ (sumZ [5; 3; 1; 1]%Z < two64)%Z /\
  exists k, footprint_90pc [5; 3; 1; 1]%Z = Defined k /\ (k <= 4)%nat /\
    ((9 * sumZ [5; 3; 1; 1]%Z + 9) / 10 <= sumZ (take k [5; 3; 1; 1]%Z))%Z /\
    forall j, (j < k)%nat ->
      (sumZ (take j [5; 3; 1; 1]%Z) < (9 * sumZ [5; 3; 1; 1]%Z + 9) / 10)%Z.
Proof.
  assert (H1 : Forall (fun c => 0 <= c)%Z [5; 3; 1; 1]%Z) by (repeat (constructor; [lia|]); constructor).
  assert (H2 : (sumZ [5; 3; 1; 1]%Z < two64)%Z) by (vm_compute; reflexivity).
  split; [exact H1|]. split; [exact H2|].
  exact (footprint_90pc_least [5; 3; 1; 1]%Z H1 H2).
Defined.


Definition psl_column (psl_per_group : list (list double)) (i : nat) : ub double :=
  fold_left (fun s row => ub_bind s (fun s =>
               ub_bind (deref row i) (fun x => Defined (dadd s x))))
            psl_per_group (Defined (Fin 0%R)).

Lemma psl_column_undefined (rows : list (list double)) i :
  fold_left (fun s row => ub_bind s (fun s =>
               ub_bind (deref row i) (fun x => Defined (dadd s x))))
            rows Undefined = Undefined.
Proof. induction rows as [|r rows IH]; [reflexivity|exact IH]. Qed.

Lemma psl_column_defined (rows : list (list double)) i s0 :
  (exists s, fold_left (fun s row => ub_bind s (fun s =>
                 ub_bind (deref row i) (fun x => Defined (dadd s x))))
              rows (Defined s0) = Defined s) <->
  Forall (fun row => i < length row)%nat rows.
Proof.
  revert s0. induction rows as [|r rows IH]; intros s0; cbn [fold_left].
  - split; [intros _; constructor|intros _; eexists; reflexivity].
  - rewrite Forall_cons. cbn [ub_bind].
    destruct (r !! i) as [x|] eqn:Hr.
    + rewrite (deref_some r i x Hr). cbn [ub_bind].
      rewrite IH. apply lookup_lt_Some in Hr. tauto.
    + assert (Hd : deref r i = Undefined) by (unfold deref; rewrite Hr; reflexivity).
      rewrite Hd. cbn [ub_bind]. rewrite psl_column_undefined. apply lookup_ge_None in Hr.
      split; [intros [s Hs]; discriminate|intros [Hi _]; lia].
Qed.

Definition psl_rows_step (psl_per_group : list (list double)) (d : double)
    (acc : ub (list double)) (i : nat) : ub (list double) :=
  ub_bind acc (fun out =>
  ub_bind (fold_left (fun s row => ub_bind s (fun s =>
              ub_bind (deref row i) (fun x => Defined (dadd s x))))
            psl_per_group (Defined (Fin 0%R))) (fun s =>
  Defined (out ++ [ddiv (ddiv s (Fin (INR (length psl_per_group)))) d]))).

Lemma psl_rows_undefined psl d (l : list nat) :
  fold_left (psl_rows_step psl d) l Undefined = Undefined.
Proof. induction l as [|i l IH]; [reflexivity|exact IH]. Qed.

Lemma psl_rows_defined psl d n a out0 :
  ((exists out, fold_left (psl_rows_step psl d) (seq a n) (Defined out0) = Defined out) <->
   forall i, (a <= i < a + n)%nat -> Forall (fun row => i < length row)%nat psl) /\
  forall out, fold_left (psl_rows_step psl d) (seq a n) (Defined out0) = Defined out ->
    length out = (length out0 + n)%nat.
Proof.
  revert a out0. induction n as [|n IH]; intros a out0; cbn [seq fold_left].
  - split; [split; [intros _ i Hi; lia|intros _; eexists; reflexivity]|].
    intros out E. injection E as <-. lia.
  - assert (Estep : psl_rows_step psl d (Defined out0) a =
              ub_bind (psl_column psl a)
                (fun s => Defined (out0 ++ [ddiv (ddiv s (Fin (INR (length psl)))) d])))
      by reflexivity.
    rewrite Estep. destruct (psl_column psl a) as [s|] eqn:Hs; cbn [ub_bind].
    + assert (Ha : Forall (fun row => a < length row)%nat psl)
        by (apply (psl_column_defined psl a (Fin 0%R)); eexists; exact Hs).
      destruct (IH (S a) (out0 ++ [ddiv (ddiv s (Fin (INR (length psl)))) d])) as [I1 I2].
      split.
      * rewrite I1. split.
        -- intros H i Hi. destruct (Nat.eq_dec i a) as [->|Hne]; [exact Ha|apply H; lia].
        -- intros H i Hi. apply H. lia.
      * intros out E. rewrite (I2 out E), length_app. cbn [length]. lia.
    + rewrite psl_rows_undefined. split.
      * split; [intros [out E]; discriminate|].
        intros H. exfalso.
        destruct (proj2 (psl_column_defined psl a (Fin 0%R)) (H a ltac:(lia))) as [s Es].
        unfold psl_column in Hs. rewrite Hs in Es. discriminate.
      * intros out E. discriminate.
Qed.

(** X11.  [avg_psl] is computed without an out-of-bounds read exactly when
    there is at least one work-group record and no record is shorter than
    the first one; it then has one entry per entry of the first record. *)
Theorem normed_psl_defined psl local_num :
  ((exists out, normed_psl psl local_num = Defined out) <->
   psl <> [] /\ Forall (fun row => length (hd [] psl) <= length row)%nat psl) /\
  forall out, normed_psl psl local_num = Defined out -> length out = length (hd [] psl).
Proof.
  unfold normed_psl. destruct psl as [|first rest] eqn:Ep.
  - cbn. split; [split; [intros [out E]; discriminate|intros [H _]; congruence]|].
    intros out E. discriminate.
  - cbn [deref lookup list_lookup ub_bind hd].
    set (d := Fin (log2 (IZR ((sx local_num * sy local_num * sz local_num) mod two32 + 1)))).
    rewrite <- Ep.
    destruct (psl_rows_defined psl d (length first) 0 []) as [I1 I2].
    assert (Estep : forall acc i,
              psl_rows_step psl d acc i =
              ub_bind acc (fun out =>
                ub_bind (fold_left (fun s row => ub_bind s (fun s =>
                            ub_bind (deref row i) (fun x => Defined (dadd s x))))
                          psl (Defined (Fin 0%R))) (fun s =>
                Defined (out ++ [ddiv (ddiv s (Fin (INR (length psl)))) d])))) by reflexivity.
    change (fold_left (fun acc i =>
              ub_bind acc (fun out =>
                ub_bind (fold_left (fun s row => ub_bind s (fun s =>
                            ub_bind (deref row i) (fun x => Defined (dadd s x))))
                          psl (Defined (Fin 0%R))) (fun s =>
                Defined (out ++ [ddiv (ddiv s (Fin (INR (length psl)))) d]))))
              (seq 0 (length first)) (Defined []))
      with (fold_left (psl_rows_step psl d) (seq 0 (length first)) (Defined [])).
    split.
    + rewrite I1. split.
      * intros H. split; [rewrite Ep; discriminate|].
        apply Forall_forall. intros row Hrow.
        destruct (length first) as [|n] eqn:Hl; [lia|].
        specialize (H n ltac:(lia)). rewrite Forall_forall in H.
        specialize (H row Hrow). lia.
      * intros [_ H] i Hi. rewrite Forall_forall in H |- *. intros row Hrow.
        specialize (H row Hrow). lia.
    + intros out E. rewrite (I2 out E). reflexivity.
Qed.

Lemma normed_psl_defined_witness :
  ([[Fin 1%R; Fin 2%R]; [Fin 3%R; Fin 4%R; Fin 5%R]] <> [] /\
   Forall (fun row => length (hd [] [[Fin 1%R; Fin 2%R]; [Fin 3%R; Fin 4%R; Fin 5%R]])
                      <= length row)%nat [[Fin 1%R; Fin 2%R]; [Fin 3%R; Fin 4%R; Fin 5%R]]) /\
  exists out, normed_psl [[Fin 1%R; Fin 2%R]; [Fin 3%R; Fin 4%R; Fin 5%R]]
                (mkSize3 2 1 1) = Defined out.
Proof.
  assert (H : [[Fin 1%R; Fin 2%R]; [Fin 3%R; Fin 4%R; Fin 5%R]] <> [] /\
    Forall (fun row => length (hd [] [[Fin 1%R; Fin 2%R]; [Fin 3%R; Fin 4%R; Fin 5%R]])
                       <= length row)%nat [[Fin 1%R; Fin 2%R]; [Fin 3%R; Fin 4%R; Fin 5%R]]).
  { split; [discriminate|]. repeat (constructor; [cbn; lia|]). constructor. }
  split; [exact H|].
  exact (proj2 (proj1 (normed_psl_defined _ (mkSize3 2 1 1))) H).
Defined.


Section MinElement.
Context {A : Type} (lt : A -> A -> bool).
Hypothesis lt_irrefl : forall x, lt x x = false.
Hypothesis lt_trans : forall x y z, lt x y = true -> lt y z = true -> lt x z = true.

Lemma min_element_go_spec (l pre : list A) best bv :
  pre !! best = Some bv -> (forall y, y ∈ pre -> lt y bv = false) ->
  exists m, (pre ++ l) !! min_element_go lt l (length pre) best bv = Some m /\
    forall y, y ∈ pre ++ l -> lt y m = false.
Proof.
  revert pre best bv. induction l as [|x r IH]; intros pre best bv Hb Hmin; cbn [min_element_go].
  - exists bv. rewrite app_nil_r. split; assumption.
  - replace (pre ++ x :: r) with ((pre ++ [x]) ++ r) by (rewrite <- app_assoc; reflexivity).
    replace (S (length pre)) with (length (pre ++ [x])) by (rewrite length_app; cbn; lia).
    destruct (lt x bv) eqn:Hx.
    + apply IH.
      * rewrite lookup_app_r by lia. rewrite Nat.sub_diag. reflexivity.
      * intros y Hy. apply elem_of_app in Hy as [Hy|Hy].
        -- destruct (lt y x) eqn:Hyx; [|reflexivity].
           specialize (Hmin y Hy). rewrite (lt_trans y x bv Hyx Hx) in Hmin.
           discriminate.
        -- apply list_elem_of_singleton in Hy. subst y. apply lt_irrefl.
    + apply IH.
      * apply lookup_app_l_Some, Hb.
      * intros y Hy. apply elem_of_app in Hy as [Hy|Hy]; [apply Hmin, Hy|].
        apply list_elem_of_singleton in Hy. subst y. exact Hx.
Qed.

Lemma min_element_spec (l : list A) :
  l <> [] -> exists m, l !! min_element lt l = Some m /\ forall y, y ∈ l -> lt y m = false.
Proof.
  destruct l as [|x r]; [congruence|]. intros _. unfold min_element.
  apply (min_element_go_spec r [x] 0 x); [reflexivity|].
  intros y Hy. apply list_elem_of_singleton in Hy. subst y. apply lt_irrefl.
Qed.

End MinElement.

Lemma max_element_spec {A} (lt : A -> A -> bool) (l : list A) :
  (forall x, lt x x = false) ->
  (forall x y z, lt x y = true -> lt y z = true -> lt x z = true) ->
  l <> [] -> exists m, l !! max_element lt l = Some m /\ forall y, y ∈ l -> lt m y = false.
Proof.
  intros Hi Ht Hne. unfold max_element.
  apply (min_element_spec (fun x y => lt y x)); [apply Hi| |exact Hne].
  intros x y z H1 H2. exact (Ht z y x H2 H1).
Qed.

Lemma Zltb_irrefl x : Z.ltb x x = false.
Proof. apply Z.ltb_irrefl. Qed.

Lemma Zltb_trans x y z : Z.ltb x y = true -> Z.ltb y z = true -> Z.ltb x z = true.
Proof. rewrite !Z.ltb_lt. lia. Qed.

(** X12.  With a non-empty [m_instructionsToBarrier], a non-empty
    [m_instructionsPerWorkitem] and a non-empty [m_instructionWidth], the
    six [min_element] / [max_element] reductions read in bounds and give
    the least and the greatest value of each vector and the least and the
    greatest width recorded. *)
Theorem parallelism_reductions_extrema a :
  m_instructionsToBarrier a <> [] -> m_instructionsPerWorkitem a <> [] ->
  m_instructionWidth a <> ∅ ->
  exists i0 i1 p0 p1 s0 s1,
    parallelism_reductions a = Defined (i0, i1, p0, p1, s0, s1) /\
    i0 ∈ m_instructionsToBarrier a /\ i1 ∈ m_instructionsToBarrier a /\
    (forall y, y ∈ m_instructionsToBarrier a -> i0 <= y <= i1)%Z /\
    p0 ∈ m_instructionsPerWorkitem a /\ p1 ∈ m_instructionsPerWorkitem a /\
    (forall y, y ∈ m_instructionsPerWorkitem a -> p0 <= y <= p1)%Z /\
    s0 ∈ dom (m_instructionWidth a) /\ s1 ∈ dom (m_instructionWidth a) /\
    (forall k, k ∈ dom (m_instructionWidth a) -> s0 <= k <= s1)%Z.
Proof.
  intros Hitb Hipt Hw.
  set (klt := fun (x y : Z * Z) => Z.ltb x.1 y.1).
  assert (Hk1 : forall x, klt x x = false) by (intros x; apply Z.ltb_irrefl).
  assert (Hk2 : forall x y z, klt x y = true -> klt y z = true -> klt x z = true)
    by (intros x y z; apply Zltb_trans).
  assert (Hwl : map_to_list (m_instructionWidth a) <> []).
  { intros E. apply Hw. apply map_to_list_empty_iff, E. }
  destruct (min_element_spec Z.ltb Zltb_irrefl Zltb_trans _ Hitb) as (i0 & E1 & M1).
  destruct (max_element_spec Z.ltb _ Zltb_irrefl Zltb_trans Hitb) as (i1 & E2 & M2).
  destruct (min_element_spec Z.ltb Zltb_irrefl Zltb_trans _ Hipt) as (p0 & E3 & M3).
  destruct (max_element_spec Z.ltb _ Zltb_irrefl Zltb_trans Hipt) as (p1 & E4 & M4).
  destruct (min_element_spec klt Hk1 Hk2 _ Hwl) as (w0 & E5 & M5).
  destruct (max_element_spec klt _ Hk1 Hk2 Hwl) as (w1 & E6 & M6).
  exists i0, i1, p0, p1, w0.1, w1.1.
  split.
  { unfold parallelism_reductions. fold klt.
    rewrite (deref_some _ _ _ E1). cbn [ub_bind]. rewrite (deref_some _ _ _ E2). cbn [ub_bind].
    rewrite (deref_some _ _ _ E3). cbn [ub_bind]. rewrite (deref_some _ _ _ E4). cbn [ub_bind].
    rewrite (deref_some _ _ _ E5). cbn [ub_bind]. rewrite (deref_some _ _ _ E6). cbn [ub_bind].
    reflexivity. }
  assert (Hdom : forall i x, map_to_list (m_instructionWidth a) !! i = Some x ->
                   x.1 ∈ dom (m_instructionWidth a)).
  { intros i [k v] Hi. apply list_elem_of_lookup_2 in Hi. apply elem_of_map_to_list in Hi.
    apply elem_of_dom. exists v. exact Hi. }
  assert (Hall : forall k, k ∈ dom (m_instructionWidth a) ->
                   (k, default 0%Z (m_instructionWidth a !! k)) ∈ map_to_list (m_instructionWidth a)).
  { intros k Hk. apply elem_of_dom in Hk as [v Hv]. apply elem_of_map_to_list.
    rewrite Hv. reflexivity. }
  repeat split.
  - eapply list_elem_of_lookup_2; exact E1.
  - eapply list_elem_of_lookup_2; exact E2.
  - specialize (M1 y H). apply Z.ltb_ge in M1. exact M1.
  - specialize (M2 y H). apply Z.ltb_ge in M2. exact M2.
  - eapply list_elem_of_lookup_2; exact E3.
  - eapply list_elem_of_lookup_2; exact E4.
  - specialize (M3 y H). apply Z.ltb_ge in M3. exact M3.
  - specialize (M4 y H). apply Z.ltb_ge in M4. exact M4.
  - exact (Hdom _ _ E5).
  - exact (Hdom _ _ E6).
  - specialize (M5 _ (Hall k H)). unfold klt in M5. apply Z.ltb_ge in M5. exact M5.
  - specialize (M6 _ (Hall k H)). unfold klt in M6. apply Z.ltb_ge in M6. exact M6.
Qed.

Lemma parallelism_reductions_extrema_witness :
  let a := mkAggregate ∅ ∅ ∅ ∅ ∅ [7; 2; 9]%Z {[ 4%Z := 1%Z; 1%Z := 5%Z ]} [3; 3]%Z
             [] ∅ ∅ 0 0 0 0 0 [] in
  m_instructionsToBarrier a <> [] /\ m_instructionsPerWorkitem a <> [] /\
  m_instructionWidth a <> ∅ /\
  exists i0 i1 p0 p1 s0 s1, parallelism_reductions a = Defined (i0, i1, p0, p1, s0, s1).
Proof.
  intros a.
  assert (H1 : m_instructionsToBarrier a <> []) by discriminate.
  assert (H2 : m_instructionsPerWorkitem a <> []) by discriminate.
  assert (H3 : m_instructionWidth a <> ∅) by (cbn; apply insert_non_empty).
  split; [exact H1|]. split; [exact H2|]. split; [exact H3|].
  destruct (parallelism_reductions_extrema a H1 H2 H3)
    as (i0 & i1 & p0 & p1 & s0 & s1 & E & _).
  exists i0, i1, p0, p1, s0, s1. exact E.
Defined.

(** X13.  The report's file-name loop picks the first free name: it
    returns [aiwc_<kernel>_<j>.csv] (under the prefix) for the least
    [j >= n] whose file does not exist, and finds none only when all the
    names it tried exist. *)
Theorem pick_report_logfile_first_free file_exists prefix kernel fuel n :
  (Transfer.pick_report_logfile file_exists prefix kernel fuel n = None <->
   forall i, (n <= i < n + fuel)%nat ->
     file_exists (report_logfile_name prefix kernel i) = true) /\
  forall name, Transfer.pick_report_logfile file_exists prefix kernel fuel n = Some name ->
    exists j, (n <= j < n + fuel)%nat /\ name = report_logfile_name prefix kernel j /\
      file_exists name = false /\
      forall i, (n <= i < j)%nat -> file_exists (report_logfile_name prefix kernel i) = true.
Proof.
  revert n. induction fuel as [|f IH]; intros n; cbn [Transfer.pick_report_logfile].
  - split; [split; [intros _ i Hi; lia|reflexivity]|]. intros name E. discriminate.
  - fold (report_logfile_name prefix kernel n).
    destruct (IH (S n)) as [I1 I2].
    destruct (file_exists (report_logfile_name prefix kernel n)) eqn:Ef; cbn [negb].
    + split.
      * rewrite I1. split.
        -- intros H i Hi. destruct (Nat.eq_dec i n) as [->|Hne]; [exact Ef|apply H; lia].
        -- intros H i Hi. apply H. lia.
      * intros name E. destruct (I2 name E) as (j & Hj & -> & Hf & Hb).
        exists j. split; [lia|]. split; [reflexivity|]. split; [exact Hf|].
        intros i Hi. destruct (Nat.eq_dec i n) as [->|Hne]; [exact Ef|apply Hb; lia].
    + split.
      * split; [discriminate|]. intros H. specialize (H n ltac:(lia)). congruence.
      * intros name E. injection E as <-. exists n. split; [lia|].
        split; [reflexivity|]. split; [exact Ef|]. intros i Hi; lia.
Qed.

End ReportFacts.

Module TraceFacts.
Import Plugin Props Transfer Traces.

(** ** Host-side copy logs *)

Lemma kernelBegin_h2d ki p L c :
  m_hostToDeviceCopy p = L ++ replicate c (m_last_kernel_name p) ->
  m_numberOfHostToDeviceCopiesBeforeKernelNamed p = Z.of_nat c ->
  m_hostToDeviceCopy (kernelBegin ki p) = L ++ replicate c (ki_name ki).
Proof.
  intros Hh Hc. unfold kernelBegin. cbn [m_hostToDeviceCopy]. rewrite Hc, Nat2Z.id, Hh.
  set (h := L ++ replicate c (m_last_kernel_name p)).
  assert (Hlen : length h = (length L + c)%nat)
    by (unfold h; rewrite length_app, length_replicate; reflexivity).
  pose proof (TransferFacts.rename_last_spec h 0 c (ki_name ki) ltac:(lia)) as [_ L2].
  cbn [Z.of_nat] in L2.
  apply list_eq. intros j. rewrite L2. rewrite Hlen.
  destruct (decide (length L + c - 0 - c <= j < length L + c - 0)%nat) as [Hj|Hj].
  - rewrite lookup_app_r by lia. rewrite lookup_replicate_2 by lia. reflexivity.
  - unfold h. destruct (decide (j < length L)%nat) as [Hl|Hl].
    + rewrite !lookup_app_l by lia. reflexivity.
    + rewrite !lookup_ge_None_2 by (rewrite length_app, length_replicate; lia). reflexivity.
Qed.

Lemma h2d_run_gen evs p L c :
  m_hostToDeviceCopy p = L ++ replicate c (m_last_kernel_name p) ->
  m_numberOfHostToDeviceCopiesBeforeKernelNamed p = Z.of_nat c ->
  m_hostToDeviceCopy (fold_left host_step evs p) =
    L ++ replicate c (default (m_last_kernel_name p) (next_kernel evs))
      ++ h2d_attr evs (m_last_kernel_name p).
Proof.
  revert p L c. induction evs as [|e evs IH]; intros p L c Hh Hc; cbn [fold_left].
  - cbn [next_kernel h2d_attr default]. rewrite app_nil_r. exact Hh.
  - destruct e as [| |ki| |ws] eqn:Ee.
    + rewrite (IH (host_step p HStore) L (S c)).
      * cbn [host_step next_kernel h2d_attr]. unfold hostMemoryStore.
        cbn [m_last_kernel_name]. rewrite replicate_S_end, <- app_assoc. reflexivity.
      * cbn [host_step]. unfold hostMemoryStore. cbn [m_hostToDeviceCopy m_last_kernel_name].
        rewrite Hh, replicate_S_end, <- app_assoc. reflexivity.
      * cbn [host_step]. unfold hostMemoryStore.
        cbn [m_numberOfHostToDeviceCopiesBeforeKernelNamed]. rewrite Hc. lia.
    + rewrite (IH (host_step p HLoad) L c); [reflexivity|exact Hh|exact Hc].
    + rewrite (IH (host_step p (HKernelBegin ki)) (L ++ replicate c (ki_name ki)) 0).
      * cbn [host_step next_kernel h2d_attr default replicate app].
        change (m_last_kernel_name (kernelBegin ki p)) with (ki_name ki).
        rewrite <- app_assoc. reflexivity.
      * cbn [host_step]. rewrite (kernelBegin_h2d ki p L c Hh Hc).
        change (m_last_kernel_name (kernelBegin ki p)) with (ki_name ki).
        cbn [replicate]. rewrite app_nil_r. reflexivity.
      * reflexivity.
    + rewrite (IH (host_step p HKernelEnd) L c); [reflexivity|exact Hh|exact Hc].
    + rewrite (IH (host_step p (HGroupComplete ws)) L c); [reflexivity|exact Hh|exact Hc].
Qed.

(** X14.  After any trace of host copies, kernel begins and ends and
    work-group merges, the host-to-device log holds one entry per
    host-to-device copy, in order: the name of the first kernel begun after
    the copy, or, when none follows, the name of the last kernel begun
    before it (empty before the first kernel). *)
Theorem h2d_log_attribution evs :
  m_hostToDeviceCopy (run_host evs) = h2d_attr evs EmptyString.
Proof.
  unfold run_host. rewrite (h2d_run_gen evs initial_plugin [] 0); reflexivity.
Qed.

Lemma d2h_run_gen evs p :
  m_deviceToHostCopy (fold_left host_step evs p) =
    m_deviceToHostCopy p ++ d2h_attr evs (m_last_kernel_name p).
Proof.
  revert p. induction evs as [|e evs IH]; intros p; cbn [fold_left d2h_attr].
  - rewrite app_nil_r. reflexivity.
  - rewrite IH. destruct e as [| |ki| |ws].
    + reflexivity.
    + cbn [host_step]. unfold hostMemoryLoad.
      cbn [m_deviceToHostCopy m_last_kernel_name]. rewrite <- app_assoc. reflexivity.
    + reflexivity.
    + reflexivity.
    + reflexivity.
Qed.

(** X15.  After any trace, the device-to-host log holds one entry per
    device-to-host copy, in order: the name of the last kernel begun before
    the copy (empty before the first kernel); kernels begun later never
    rename it. *)
Theorem d2h_log_attribution evs :
  m_deviceToHostCopy (run_host evs) = d2h_attr evs EmptyString.
Proof. unfold run_host. rewrite d2h_run_gen. reflexivity. Qed.

(** ** Work-group and invocation counters *)

Lemma count_ev_cons f e evs :
  count_ev f (e :: evs) = ((if f e then 1 else 0) + count_ev f evs)%nat.
Proof. unfold count_ev. cbn [List.filter]. destruct (f e); reflexivity. Qed.

Lemma wg_step_fields L ws e :
  let ws' := wg_step L ws e in
  ws_allocated ws' = ws_allocated ws /\
  threads_invoked (ws_ctr ws') =
    (threads_invoked (ws_ctr ws) + if is_item_begin e then 1 else 0)%Z /\
  barriers_hit (ws_ctr ws') =
    (barriers_hit (ws_ctr ws) + if is_item_barrier e then 1 else 0)%Z /\
  length (instructionsPerWorkitem (ws_maps ws')) =
    (length (instructionsPerWorkitem (ws_maps ws)) + if is_item_complete e then 1 else 0)%nat /\
  length (instructionsBetweenBarriers (ws_maps ws')) =
    (length (instructionsBetweenBarriers (ws_maps ws)) +
       (if is_item_complete e then 1 else 0) + (if is_item_barrier e then 1 else 0))%nat /\
  length (ws_psl_per_barrier ws') =
    (length (ws_psl_per_barrier ws) + if is_group_barrier e then 1 else 0)%nat.
Proof.
  destruct e as [sp a lid|sp a lid| | | | |]; cbn [wg_step is_item_begin is_item_barrier
    is_item_complete is_group_barrier].
  - unfold memoryLoad. destruct (Z.eqb sp AddrSpacePrivate); cbn; repeat split; lia.
  - unfold memoryStore. destruct (Z.eqb sp AddrSpacePrivate); cbn; repeat split; lia.
  - cbn. repeat split; lia.
  - cbn. unfold push32. rewrite !length_app. cbn. repeat split; lia.
  - cbn. unfold push32. rewrite !length_app. cbn. repeat split; lia.
  - cbn. repeat split; lia.
  - cbn. rewrite length_app. cbn. repeat split; lia.
Qed.

Lemma events_counters L evs ws :
  let ws' := fold_left (wg_step L) evs ws in
  ws_allocated ws' = ws_allocated ws /\
  threads_invoked (ws_ctr ws') =
    (threads_invoked (ws_ctr ws) + Z.of_nat (count_ev is_item_begin evs))%Z /\
  barriers_hit (ws_ctr ws') =
    (barriers_hit (ws_ctr ws) + Z.of_nat (count_ev is_item_barrier evs))%Z /\
  length (instructionsPerWorkitem (ws_maps ws')) =
    (length (instructionsPerWorkitem (ws_maps ws)) + count_ev is_item_complete evs)%nat /\
  length (instructionsBetweenBarriers (ws_maps ws')) =
    (length (instructionsBetweenBarriers (ws_maps ws)) +
       count_ev is_item_complete evs + count_ev is_item_barrier evs)%nat /\
  length (ws_psl_per_barrier ws') =
    (length (ws_psl_per_barrier ws) + count_ev is_group_barrier evs)%nat.
Proof.
  revert ws. induction evs as [|e evs IH]; intros ws; cbn [fold_left].
  - unfold count_ev. cbn. repeat split; lia.
  - destruct (IH (wg_step L ws e)) as (I1 & I2 & I3 & I4 & I5 & I6).
    destruct (wg_step_fields L ws e) as (S1 & S2 & S3 & S4 & S5 & S6).
    rewrite !count_ev_cons.
    repeat split.
    + rewrite I1. exact S1.
    + rewrite I2, S2. destruct (is_item_begin e); lia.
    + rewrite I3, S3. destruct (is_item_barrier e); lia.
    + rewrite I4, S4. lia.
    + rewrite I5, S5. lia.
    + rewrite I6, S6. lia.
Qed.

Lemma run_group_counters L ws evs :
  let ws' := run_group L ws evs in
  ws_allocated ws' = true /\
  threads_invoked (ws_ctr ws') = Z.of_nat (count_ev is_item_begin evs) /\
  barriers_hit (ws_ctr ws') = Z.of_nat (count_ev is_item_barrier evs) /\
  length (instructionsPerWorkitem (ws_maps ws')) = count_ev is_item_complete evs /\
  length (instructionsBetweenBarriers (ws_maps ws')) =
    (count_ev is_item_complete evs + count_ev is_item_barrier evs)%nat /\
  length (ws_psl_per_barrier ws') =
    ((if ws_allocated ws then length (ws_psl_per_barrier ws) else 0) +
       count_ev is_group_barrier evs)%nat.
Proof.
  unfold run_group.
  destruct (events_counters L evs (workGroupBegin L ws)) as (I1 & I2 & I3 & I4 & I5 & I6).
  rewrite I1, I2, I3, I4, I5, I6.
  unfold workGroupBegin. destruct (ws_allocated ws); cbn; repeat split; lia.
Qed.

Lemma merge_add_lookup (d src : gmap Z Z) x :
  default 0%Z (merge_add d src !! x) = (default 0%Z (d !! x) + default 0%Z (src !! x))%Z.
Proof.
  unfold merge_add. revert x.
  apply (map_fold_weak_ind (fun r m => forall x,
           default 0%Z (r !! x) = (default 0%Z (d !! x) + default 0%Z (m !! x))%Z)).
  - intros x. rewrite lookup_empty. cbn [default]. lia.
  - intros i v m r Hm IH x. unfold add_at.
    destruct (decide (x = i)) as [->|Hne].
    + rewrite !lookup_insert_eq. cbn [default Datatypes.id]. rewrite IH, Hm. cbn [default Datatypes.id]. lia.
    + rewrite !lookup_insert_ne by congruence. apply IH.
Qed.

Lemma merged_fold_counters (workers : list WorkerState) p0 :
  let a := agg (fold_left (fun p ws => fst (workGroupComplete p ws)) workers p0) in
  m_threads_invoked a =
    (m_threads_invoked (agg p0) + sumZ (map (fun ws => threads_invoked (ws_ctr ws)) workers))%Z /\
  m_barriers_hit a =
    (m_barriers_hit (agg p0) + sumZ (map (fun ws => barriers_hit (ws_ctr ws)) workers))%Z /\
  length (m_instructionsPerWorkitem a) =
    (length (m_instructionsPerWorkitem (agg p0)) +
       sum_list_with (fun ws => length (instructionsPerWorkitem (ws_maps ws))) workers)%nat /\
  length (m_instructionsToBarrier a) =
    (length (m_instructionsToBarrier (agg p0)) +
       sum_list_with (fun ws => length (instructionsBetweenBarriers (ws_maps ws))) workers)%nat /\
  length (m_psl_per_group a) = (length (m_psl_per_group (agg p0)) + length workers)%nat /\
  forall x,
    default 0%Z (m_storeOps a !! x) =
      (default 0%Z (m_storeOps (agg p0) !! x) +
         sumZ (map (fun ws => default 0%Z (storeOps (ws_maps ws) !! x)) workers))%Z /\
    default 0%Z (m_loadOps a !! x) =
      (default 0%Z (m_loadOps (agg p0) !! x) +
         sumZ (map (fun ws => default 0%Z (loadOps (ws_maps ws) !! x)) workers))%Z.
Proof.
  revert p0. induction workers as [|w ws IH]; intros p0; cbn [fold_left map sumZ fold_right].
  - cbn [sum_list_with length]. unfold sumZ. cbn [fold_right].
    repeat split; intros; lia.
  - destruct (IH (fst (workGroupComplete p0 w))) as (I1 & I2 & I3 & I4 & I5 & I6).
    cbn [sum_list_with length]. unfold sumZ in *. cbn [fold_right].
    change (agg (fst (workGroupComplete p0 w))) with
      (agg (fst (workGroupComplete p0 w))) in *.
    repeat split.
    + rewrite I1. cbn [workGroupComplete fst agg m_threads_invoked]. lia.
    + rewrite I2. cbn [workGroupComplete fst agg m_barriers_hit]. lia.
    + rewrite I3. cbn [workGroupComplete fst agg m_instructionsPerWorkitem].
      rewrite length_app. lia.
    + rewrite I4. cbn [workGroupComplete fst agg m_instructionsToBarrier].
      rewrite length_app. lia.
    + rewrite I5. cbn [workGroupComplete fst agg m_psl_per_group].
      rewrite length_app. cbn [length]. lia.
    + rewrite (proj1 (I6 x)). cbn [workGroupComplete fst agg m_storeOps].
      rewrite merge_add_lookup. lia.
    + rewrite (proj2 (I6 x)). cbn [workGroupComplete fst agg m_loadOps].
      rewrite merge_add_lookup. lia.
Qed.

Lemma events_ops_at L evs ws x :
  (0 <= default 0 (storeOps (ws_maps ws) !! x) < two32)%Z ->
  (0 <= default 0 (loadOps (ws_maps ws) !! x) < two32)%Z ->
  let ws' := fold_left (wg_step L) evs ws in
  default 0%Z (storeOps (ws_maps ws') !! x) =
    ((default 0 (storeOps (ws_maps ws) !! x) + Z.of_nat (count_ev (is_store_of x) evs))
       mod two32)%Z /\
  default 0%Z (loadOps (ws_maps ws') !! x) =
    ((default 0 (loadOps (ws_maps ws) !! x) + Z.of_nat (count_ev (is_load_of x) evs))
       mod two32)%Z.
Proof.
  revert ws. induction evs as [|e evs IH]; intros ws Hs Hl; cbn [fold_left].
  - unfold count_ev. cbn [List.filter length Z.of_nat].
    rewrite !Z.add_0_r, !Z.mod_small by lia. split; reflexivity.
  - assert (Htwo : (0 < two32)%Z) by (unfold two32; lia).
    rewrite !count_ev_cons.
    assert (Hincr : forall (m : gmap Z Z) a, (0 <= default 0 (m !! x) < two32)%Z ->
              default 0%Z (incr32 m a !! x) =
                ((default 0 (m !! x) + if Z.eqb a x then 1 else 0) mod two32)%Z /\
              (0 <= default 0%Z (incr32 m a !! x) < two32)%Z).
    { intros m a Hm. unfold incr32. destruct (Z.eqb_spec a x) as [->|Hne].
      - rewrite lookup_insert_eq. cbn [default Datatypes.id].
        split; [reflexivity|]. apply Z.mod_pos_bound. exact Htwo.
      - rewrite lookup_insert_ne by congruence.
        rewrite Z.add_0_r, Z.mod_small by lia. split; [reflexivity|exact Hm]. }
    destruct e as [sp a lid|sp a lid| | | | |]; cbn [wg_step is_store_of is_load_of].
    + unfold memoryLoad. destruct (Z.eqb sp AddrSpacePrivate); cbn [negb andb].
      * rewrite !Nat.add_0_l. exact (IH ws Hs Hl).
      * destruct (Hincr (loadOps (ws_maps ws)) a Hl) as [E B].
        destruct (IH (threadMemoryLedger L a 0 lid (with_maps ws
                    (set_loadOps (ws_maps ws) (incr32 (loadOps (ws_maps ws)) a)))))
          as [I1 I2]; [exact Hs|exact B|].
        rewrite I1, I2. cbn [threadMemoryLedger with_ledger with_maps ws_maps
          set_loadOps loadOps storeOps].
        rewrite E, Nat.add_0_l. split; [reflexivity|].
        rewrite Zplus_mod_idemp_l. f_equal. destruct (Z.eqb a x); lia.
    + unfold memoryStore. destruct (Z.eqb sp AddrSpacePrivate); cbn [negb andb].
      * rewrite !Nat.add_0_l. exact (IH ws Hs Hl).
      * destruct (Hincr (storeOps (ws_maps ws)) a Hs) as [E B].
        destruct (IH (threadMemoryLedger L a 0 lid (with_maps ws
                    (set_storeOps (ws_maps ws) (incr32 (storeOps (ws_maps ws)) a)))))
          as [I1 I2]; [exact B|exact Hl|].
        rewrite I1, I2. cbn [threadMemoryLedger with_ledger with_maps ws_maps
          set_storeOps loadOps storeOps].
        rewrite E, Nat.add_0_l. split; [|reflexivity].
        rewrite Zplus_mod_idemp_l. f_equal. destruct (Z.eqb a x); lia.
    + rewrite !Nat.add_0_l. exact (IH (workItemBegin ws) Hs Hl).
    + rewrite !Nat.add_0_l. exact (IH (workItemComplete ws) Hs Hl).
    + rewrite !Nat.add_0_l. exact (IH (workItemBarrier ws) Hs Hl).
    + rewrite !Nat.add_0_l. exact (IH (workItemClearBarrier ws) Hs Hl).
    + rewrite !Nat.add_0_l. exact (IH (workGroupBarrier ws) Hs Hl).
Qed.

Lemma run_group_ops_at L ws evs x :
  default 0%Z (storeOps (ws_maps (run_group L ws evs)) !! x) =
    (Z.of_nat (count_ev (is_store_of x) evs) mod two32)%Z /\
  default 0%Z (loadOps (ws_maps (run_group L ws evs)) !! x) =
    (Z.of_nat (count_ev (is_load_of x) evs) mod two32)%Z.
Proof.
  unfold run_group.
  assert (E1 : storeOps (ws_maps (workGroupBegin L ws)) = ∅) by reflexivity.
  assert (E2 : loadOps (ws_maps (workGroupBegin L ws)) = ∅) by reflexivity.
  destruct (events_ops_at L evs (workGroupBegin L ws) x) as [I1 I2];
    [rewrite E1, lookup_empty; cbn [default Datatypes.id]; split; [lia|reflexivity]
    |rewrite E2, lookup_empty; cbn [default Datatypes.id]; split; [lia|reflexivity]|].
  rewrite I1, I2, E1, E2, lookup_empty. split; reflexivity.
Qed.

(** X16.  For every invocation (work-groups run from any worker states on
    any events, then merged in order), [m_threads_invoked] is the number of
    [workItemBegin] calls, [m_barriers_hit] the number of [workItemBarrier]
    calls, [m_instructionsPerWorkitem] has one entry per [workItemComplete],
    [m_instructionsToBarrier] one entry per [workItemComplete] or
    [workItemBarrier], and [m_psl_per_group] one entry per work-group:
    [kernelBegin] clears them and [workGroupBegin] clears the per-group
    counters. *)
Theorem invocation_counters ki p groups :
  let a := agg (invocation ki p groups) in
  m_threads_invoked a = sumZ (map (fun g => Z.of_nat (count_ev is_item_begin g.2)) groups) /\
  m_barriers_hit a = sumZ (map (fun g => Z.of_nat (count_ev is_item_barrier g.2)) groups) /\
  length (m_instructionsPerWorkitem a) =
    sum_list_with (fun g => count_ev is_item_complete g.2) groups /\
  length (m_instructionsToBarrier a) =
    sum_list_with (fun g => count_ev is_item_complete g.2 + count_ev is_item_barrier g.2)%nat
      groups /\
  length (m_psl_per_group a) = length groups.
Proof.
  unfold invocation, merged.
  destruct (merged_fold_counters (map (fun g => run_group (ki_local_size ki) g.1 g.2) groups)
              (kernelBegin ki p)) as (I1 & I2 & I3 & I4 & I5 & _).
  rewrite I1, I2, I3, I4, I5, length_map. cbn [kernelBegin agg m_threads_invoked
    m_barriers_hit m_instructionsPerWorkitem m_instructionsToBarrier m_psl_per_group length].
  clear I1 I2 I3 I4 I5.
  rewrite !map_map. unfold sumZ.
  induction groups as [|[ws evs] gs IH]; [repeat split|].
  cbn [map fold_right sum_list_with fst snd].
  destruct (run_group_counters (ki_local_size ki) ws evs) as (_ & R2 & R3 & R4 & R5 & _).
  rewrite R2, R3, R4, R5.
  destruct IH as (H1 & H2 & H3 & H4 & H5).
  repeat split; lia.
Qed.

(** X17.  For every invocation and every address, the merged
    [m_storeOps] (resp. [m_loadOps]) count of the address is the sum over
    the work-groups of the number of non-private stores (resp. loads) of
    that address in the group, each taken modulo 2^32 (the [uint32_t]
    per-thread counters); an address never accessed counts 0. *)
Theorem invocation_ops_at ki p groups x :
  let a := agg (invocation ki p groups) in
  default 0%Z (m_storeOps a !! x) =
    sumZ (map (fun g => Z.of_nat (count_ev (is_store_of x) g.2) mod two32)%Z groups) /\
  default 0%Z (m_loadOps a !! x) =
    sumZ (map (fun g => Z.of_nat (count_ev (is_load_of x) g.2) mod two32)%Z groups).
Proof.
  unfold invocation, merged.
  destruct (merged_fold_counters (map (fun g => run_group (ki_local_size ki) g.1 g.2) groups)
              (kernelBegin ki p)) as (_ & _ & _ & _ & _ & I6).
  destruct (I6 x) as [E1 E2]. rewrite E1, E2. clear I6 E1 E2.
  cbn [kernelBegin agg m_storeOps m_loadOps]. rewrite lookup_empty. cbn [default].
  rewrite !map_map. unfold sumZ.
  induction groups as [|[ws evs] gs IH]; [split; reflexivity|].
  cbn [map fold_right fst snd].
  destruct (run_group_ops_at (ki_local_size ki) ws evs x) as [R1 R2].
  rewrite R1, R2. destruct IH as [H1 H2]. split; lia.
Qed.

Lemma group_on_thread_psl L p ws evs :
  let ws' := snd (group_on_thread L (p, ws) evs) in
  ws_allocated ws' = true /\
  length (ws_psl_per_barrier ws') =
    ((if ws_allocated ws then length (ws_psl_per_barrier ws) else 0) +
       count_ev is_group_barrier evs + 1)%nat.
Proof.
  unfold group_on_thread. cbn [fst snd].
  destruct (run_group_counters L ws evs) as (R1 & _ & _ & _ & _ & R6).
  cbn [workGroupComplete snd ws_allocated ws_psl_per_barrier].
  rewrite R1, length_app, R6. cbn [length]. split; [reflexivity|lia].
Qed.

Lemma run_thread_psl L p ws groups :
  groups <> [] ->
  ws_allocated (snd (run_thread L p ws groups)) = true /\
  length (ws_psl_per_barrier (snd (run_thread L p ws groups))) =
    ((if ws_allocated ws then length (ws_psl_per_barrier ws) else 0) +
       sum_list_with (fun evs => count_ev is_group_barrier evs + 1)%nat groups)%nat.
Proof.
  unfold run_thread. revert p ws.
  induction groups as [|g gs IH]; intros p ws Hne; [congruence|].
  cbn [fold_left sum_list_with].
  destruct (group_on_thread_psl L p ws g) as [G1 G2].
  destruct gs as [|g' gs'].
  - cbn [fold_left sum_list_with]. rewrite G2. split; [exact G1|lia].
  - rewrite (surjective_pairing (group_on_thread L (p, ws) g)).
    destruct (IH (group_on_thread L (p, ws) g).1 (group_on_thread L (p, ws) g).2
                ltac:(discriminate)) as [I1 I2].
    rewrite I2, G1, G2. split; [exact I1|lia].
Qed.

(** X18.  On a thread, [workGroupBegin] never clears the per-barrier PSL
    records once the thread's state is allocated: after any work-groups of
    one invocation and any of a later one (with any local sizes and plugin
    states), the thread holds one record per [workGroupBarrier] and one per
    [workGroupComplete] of all of them, so the weighted average of each
    group is taken over the records of every earlier group of the thread. *)
Theorem psl_records_accumulate L L' p p' groups groups' :
  let t1 := run_thread L p initial_worker groups in
  let t2 := run_thread L' p' (snd t1) groups' in
  length (ws_psl_per_barrier (snd t1)) =
    sum_list_with (fun evs => count_ev is_group_barrier evs + 1)%nat groups /\
  length (ws_psl_per_barrier (snd t2)) =
    (sum_list_with (fun evs => count_ev is_group_barrier evs + 1)%nat groups +
     sum_list_with (fun evs => count_ev is_group_barrier evs + 1)%nat groups')%nat.
Proof.
  intros t1 t2.
  assert (H1 : length (ws_psl_per_barrier (snd t1)) =
                 sum_list_with (fun evs => count_ev is_group_barrier evs + 1)%nat groups /\
               (groups <> [] -> ws_allocated (snd t1) = true)).
  { destruct groups as [|g gs].
    - split; [reflexivity|congruence].
    - destruct (run_thread_psl L p initial_worker (g :: gs) ltac:(discriminate)) as [A B].
      split; [exact B|intros _; exact A]. }
  destruct H1 as [H1 H1a]. split; [exact H1|].
  destruct groups' as [|g gs].
  - cbn [sum_list_with]. unfold t2, run_thread. cbn [fold_left snd].
    rewrite Nat.add_0_r. exact H1.
  - destruct (run_thread_psl L' p' (snd t1) (g :: gs) ltac:(discriminate)) as [_ B].
    unfold t2. rewrite B.
    destruct (ws_allocated (snd t1)) eqn:Ea.
    + rewrite H1. reflexivity.
    + destruct groups as [|g0 gs0].
      * cbn [sum_list_with]. reflexivity.
      * specialize (H1a ltac:(discriminate)). discriminate H1a.
Qed.

End TraceFacts.

Module KernelEndFacts.
Import Plugin Props Metrics Report Instr.

(** C9 (code bug).  One work-group of one work-item that runs one
    instruction, hits one barrier and completes: [logMetrics] reads all its
    reductions, medians and the normed PSL in bounds for this invocation,
    and after [kernelEnd] the aggregate still holds [m_barriers_hit = 1],
    the group's PSL record and the non-empty [m_instructionWidth]: the
    source does not reset [m_instructionWidth], [m_barriers_hit], the three
    memory-space counters or [m_psl_per_group], although [kernelBegin]
    does (and [m_instructionsToBarrier], say, is reset). *)
Theorem kernelEnd_keeps_counters :
  let L := unit_local in
  let ki := mkKernelInvocation "k" false L L in
  let ins := mkInstruction 1 13 1 NotMemory 2 None in
  match run_instrs (wg_step L (workGroupBegin L initial_worker) EvItemBegin) [(ins, 32%Z)] with
  | None => False
  | Some ws1 =>
      let ws := fold_left (wg_step L) [EvItemBarrier; EvItemComplete] ws1 in
      let p := merged ki initial_plugin [ws] in
      let a := agg (kernelEnd p) in
      (exists r, parallelism_reductions (agg p) = Defined r) /\
      (exists m, median (m_instructionsToBarrier (agg p)) = Defined m) /\
      (exists m, median (m_instructionsPerWorkitem (agg p)) = Defined m) /\
      (exists v, normed_psl (m_psl_per_group (agg p)) L = Defined v) /\
      m_barriers_hit a = 1%Z /\ length (m_psl_per_group a) = 1%nat /\
      m_instructionWidth a = m_instructionWidth (agg p) /\ m_instructionWidth a <> ∅ /\
      m_instructionsToBarrier a = []
  end.
Proof.
  cbn zeta. cbn [run_instrs].
  split; [eexists; reflexivity|]. split; [eexists; reflexivity|].
  split; [eexists; reflexivity|]. split; [eexists; reflexivity|].
  split; [reflexivity|]. split; [reflexivity|]. split; [reflexivity|].
  split; [|reflexivity].
  intros H. apply (f_equal (lookup 32%Z)) in H.
  rewrite lookup_empty in H. vm_compute in H. discriminate H.
Qed.

End KernelEndFacts.
